(** * nrl: random-walk corpora for network representation learning

    A shallow embedding of [nrl.walker.utils], [nrl.walker.walkers] and
    [nrl.algorithm.node2vec], with the properties of the walk engine stated
    and proved over it.

    Conventions of the embedding.
    - Python floats are idealised as exact rationals ([Q]); a numpy array
      element is an [NpFloat], which is either a finite rational or the
      result of a division by zero (numpy yields nan/inf there and does not
      raise).  Rounding, overflow and underflow of binary64 arithmetic are
      not modelled: what is proved of the value of a stored probability is
      proved of the exact quotient.
    - Python exceptions are values of [Exn]; a computation that may raise
      has type [Exn + A].
    - A generator is run to completion and described by its [Trace]: the
      values it yielded, the exception that ended it (if any) and the state
      of the random generators afterwards.
    - The two random generators used by the code ([random] and
      [numpy.random]) are streams of draws from the unit interval, read
      through a cursor. *)

From Stdlib Require Import ZArith QArith Qround Lia Lqa List.
From stdpp Require Import base option list gmap strings.

Open Scope nat_scope.

(** ** Exceptions and the error monad *)

Inductive Exn : Type :=
| ValueError
| IndexError
| KeyError
| TypeError
| ZeroDivisionError.

Definition bindE {A B : Type} (m : Exn + A) (f : A -> Exn + B) : Exn + B :=
  match m with
  | inl e => inl e
  | inr a => f a
  end.

Notation "'let*' x ':=' m 'in' k" := (bindE m (fun x => k))
  (at level 10, x pattern, m at level 100, k at level 200).

(** [for x in l: s = f x s], stopping at the first exception. *)
Fixpoint foldE {S A : Type} (f : A -> S -> Exn + S) (l : list A) (s : S) : Exn + S :=
  match l with
  | [] => inr s
  | x :: rest => let* s' := f x s in foldE f rest s'
  end.

(** ** Numbers *)

(** Python's [a / b] on floats: raises on a zero divisor; the quotient is
    the exact one. *)
Definition py_div (a b : Q) : Exn + Q :=
  if Qeq_bool b 0 then inl ZeroDivisionError else inr (a / b)%Q.

Inductive NpFloat : Type :=
| Finite (x : Q)
| NotFinite.

Definition Qsum (l : list Q) : Q := fold_right Qplus 0%Q l.

(** [arr / arr.sum()] on a numpy array built from a list of floats, with
    the exact sum and the exact quotients. *)
Definition np_normalize (l : list Q) : list NpFloat :=
  let sum_of_weights := Qsum l in
  map (fun x => if Qeq_bool sum_of_weights 0 then NotFinite
                else Finite (x / sum_of_weights)%Q) l.

Definition np_finite (x : NpFloat) : option Q :=
  match x with
  | Finite v => Some v
  | NotFinite => None
  end.

(** The finite entries of an array, or [None] when one entry is nan/inf. *)
Fixpoint np_values (l : list NpFloat) : option (list Q) :=
  match l with
  | [] => Some []
  | x :: rest =>
      match np_finite x, np_values rest with
      | Some v, Some vs => Some (v :: vs)
      | _, _ => None
      end
  end.

(** ** The graph (igraph's [Graph], as far as the code uses it) *)

Record Edge : Type := {
  e_source : nat;
  e_target : nat;
  e_weight : Q
}.

Record VertexAttrs : Type := {
  v_name : string;
  v_label : string
}.

(** Vertices are igraph vertex indices [0 .. vcount-1]; vertex [i] carries
    the attributes [g_vs !! i].  The attributes written by the Node2Vec
    precomputation, ['probabilities'] and ['first_travel_key'], are kept per
    vertex index. *)
Record Graph : Type := {
  g_directed : bool;
  g_vs : list VertexAttrs;
  g_es : list Edge;
  g_probabilities : gmap nat (gmap string (list NpFloat));
  g_first_travel_key : gmap nat (list NpFloat)
}.

Definition vcount (g : Graph) : nat := length (g_vs g).

(** [graph.vs], as the list of vertex indices. *)
Definition vs (g : Graph) : list nat := seq 0 (vcount g).

(** [vertex['name']] and [vertex['label']]. *)
Definition vname (g : Graph) (v : nat) : string :=
  default EmptyString (v_name <$> g_vs g !! v).

Definition vlabel (g : Graph) (v : nat) : string :=
  default EmptyString (v_label <$> g_vs g !! v).

(** An edge reported by igraph with source [a] and target [b]. *)
Definition joins (a b : nat) (e : Edge) : bool :=
  (e_source e =? a) && (e_target e =? b).

Definition count_between (g : Graph) (v w : nat) : nat :=
  length (List.filter (joins v w) (g_es g)) + length (List.filter (joins w v) (g_es g)).

(** [vertex.neighbors()] (mode "all"): the other end of every edge at [v],
    whatever its direction, ordered by vertex index, once per edge. *)
Definition neighbors (g : Graph) (v : nat) : list nat :=
  flat_map (fun w => repeat w (count_between g v w)) (vs g).

(** [graph.neighborhood_size(v)] (order 1, mode "all", mindist 0): the
    number of vertices at distance at most one from [v], [v] included. *)
Definition neighborhood_size (g : Graph) (v : nat) : nat :=
  length (remove_dups (v :: neighbors g v)).

(** [graph.es.select(_between=([a], [b]))]. *)
Definition select_between (g : Graph) (a b : nat) : list Edge :=
  List.filter (fun e => joins a b e || joins b a e) (g_es g).

(** [graph.es.select(_source=s, _target=t)]: the edges whose source is [s]
    and whose target is [t]. *)
Definition select_source_target (g : Graph) (s t : nat) : list Edge :=
  List.filter (joins s t) (g_es g).

(** [seq[0]] *)
Definition first_item {A : Type} (l : list A) : Exn + A :=
  match l with
  | [] => inl IndexError
  | x :: _ => inr x
  end.

Definition set_weights (g : Graph) (w : Q) : Graph :=
  {| g_directed := g_directed g;
     g_vs := g_vs g;
     g_es := map (fun e => {| e_source := e_source e; e_target := e_target e; e_weight := w |}) (g_es g);
     g_probabilities := g_probabilities g;
     g_first_travel_key := g_first_travel_key g |}.

Definition with_probabilities (g : Graph) (m : gmap nat (gmap string (list NpFloat))) : Graph :=
  {| g_directed := g_directed g;
     g_vs := g_vs g;
     g_es := g_es g;
     g_probabilities := m;
     g_first_travel_key := g_first_travel_key g |}.

Definition with_first_travel_key (g : Graph) (m : gmap nat (list NpFloat)) : Graph :=
  {| g_directed := g_directed g;
     g_vs := g_vs g;
     g_es := g_es g;
     g_probabilities := g_probabilities g;
     g_first_travel_key := m |}.

(** ** Parameters ([nrl.walker.utils.RandomWalkParameters]) *)

(** One entry of [sampling_strategy]: a dict with the optional keys
    ['p'], ['q'], ['num_walks'] and ['walk_length']. *)
Record Strategy : Type := {
  s_p : option Q;
  s_q : option Q;
  s_num_walks : option Z;
  s_walk_length : option Z
}.

(** The keys of [sampling_strategy] are Python objects.  The table builder
    looks a vertex up by its name (a string), the walker by the igraph
    [Vertex] object itself (identified by its index). *)
Definition PyKey : Type := nat + string.
Definition key_of_vertex (v : nat) : PyKey := inl v.
Definition key_of_name (s : string) : PyKey := inr s.

(** The dataclass; its fields [p] and [q] are [rw_p] and [rw_q] here, and
    [sampling_strategy] is always a dict (its default), never [None]. *)
Record RandomWalkParameters : Type := {
  number_paths : Z;
  max_path_length : Z;
  restart_probability : Q;
  rw_p : Q;
  rw_q : Q;
  sampling_strategy : gmap (nat + string) Strategy;
  is_directed : bool;
  is_weighted : bool
}.

(** ** [nrl.algorithm.node2vec.Node2VecModel] *)

Module Node2VecModel.

Definition _get_p (params : RandomWalkParameters) (current_node : string) : Q :=
  match sampling_strategy params !! key_of_name current_node with
  | Some s => default (rw_p params) (s_p s)
  | None => rw_p params
  end.

Definition _get_q (params : RandomWalkParameters) (current_node : string) : Q :=
  match sampling_strategy params !! key_of_name current_node with
  | Some s => default (rw_q params) (s_q s)
  | None => rw_q params
  end.

Definition _compute_prob (g : Graph) (source target : nat) (p q weight : Q) : Exn + Q :=
  if target =? source then py_div weight p
  else if 0 <? length (select_source_target g source target) then inr weight
  else py_div weight q.

(** The body of the loop over [current_node.neighbors()], with the two
    lists being appended to. *)
Fixpoint weights_loop (params : RandomWalkParameters) (g : Graph)
    (source current_node : nat) (first_travel_done : gset string)
    (targets : list nat) (unnormalized_weights first_travel_weights : list Q)
    : Exn + (list Q * list Q) :=
  match targets with
  | [] => inr (unnormalized_weights, first_travel_weights)
  | target :: rest =>
      let p := _get_p params (vname g current_node) in
      let q := _get_q params (vname g current_node) in
      let* edge := first_item (select_between g current_node target) in
      let edge_weight := e_weight edge in
      let* w := _compute_prob g source target p q edge_weight in
      weights_loop params g source current_node first_travel_done rest
        (unnormalized_weights ++ [w])
        (if decide (vname g current_node ∈ first_travel_done)
         then first_travel_weights
         else first_travel_weights ++ [edge_weight])
  end.

Definition _compute_unnormalized_weights (params : RandomWalkParameters) (g : Graph)
    (source current_node : nat) (first_travel_done : gset string)
    : Exn + (list Q * list Q) :=
  weights_loop params g source current_node first_travel_done
    (neighbors g current_node) [] [].

(** [current_node['probabilities'][key] = dist]; the attribute must hold
    a dict. *)
Definition store_probabilities (g : Graph) (current_node : nat) (key : string)
    (dist : list NpFloat) : Exn + Graph :=
  match g_probabilities g !! current_node with
  | None => inl TypeError
  | Some d =>
      inr (with_probabilities g (<[current_node := <[key := dist]> d]> (g_probabilities g)))
  end.

(** The body of the inner loop of [_precompute_probs]. *)
Definition precompute_step (params : RandomWalkParameters) (source current_node : nat)
    (st : Graph * gset string) : Exn + (Graph * gset string) :=
  let g := st.1 in
  let first_travel_done := st.2 in
  let* ws := _compute_unnormalized_weights params g source current_node first_travel_done in
  let* g1 := store_probabilities g current_node (vname g source) (np_normalize ws.1) in
  if decide (vname g1 current_node ∈ first_travel_done) then inr (g1, first_travel_done)
  else
    inr (with_first_travel_key g1
           (<[current_node := np_normalize ws.2]> (g_first_travel_key g1)),
         {[vname g1 current_node]} ∪ first_travel_done).

(** [for node in self.graph.vs: node['probabilities'] = dict()] *)
Definition reset_probabilities (g : Graph) : Graph :=
  fold_left (fun g node => with_probabilities g (<[node := ∅]> (g_probabilities g)))
    (vs g) g.

Definition _precompute_probs (params : RandomWalkParameters) (g : Graph) : Exn + Graph :=
  let g0 := reset_probabilities g in
  let* st :=
    foldE (fun source st =>
             foldE (precompute_step params source) (neighbors st.1 source) st)
      (vs g0) (g0, ∅) in
  inr st.1.

(** [if not is_weighted: for edge in self.graph.es: edge['weight'] = 1] *)
Definition reset_weights (params : RandomWalkParameters) (g : Graph) : Graph :=
  if is_weighted params then g else set_weights g 1%Q.

(** The constructor, as far as it touches the graph: the edge weights are
    overwritten for an unweighted graph, then the tables are built. *)
Definition __init__ (params : RandomWalkParameters) (g : Graph) : Exn + Graph :=
  _precompute_probs params (reset_weights params g).

End Node2VecModel.

(** ** Random sources *)

(** The draws of Python's [random] module and of [numpy.random], each an
    infinite sequence of values of the unit interval. *)
Record RandomSource : Type := {
  py_draw : nat -> Q;
  np_draw : nat -> Q
}.

(** How many draws of each generator have been consumed. *)
Record RandomState : Type := {
  py_pos : nat;
  np_pos : nat
}.

Definition py_advance (k : nat) (st : RandomState) : RandomState :=
  {| py_pos := k + py_pos st; np_pos := np_pos st |}.

Definition np_advance (k : nat) (st : RandomState) : RandomState :=
  {| py_pos := py_pos st; np_pos := k + np_pos st |}.

(** The index below [n] selected by a draw [u] of the unit interval. *)
Definition unit_index (u : Q) (n : nat) : nat :=
  Z.to_nat (Qfloor (u * inject_Z (Z.of_nat n))) mod n.

(** [random.random()] *)
Definition random_random (src : RandomSource) (st : RandomState) : Q * RandomState :=
  (py_draw src (py_pos st), py_advance 1 st).

(** [random.choice(seq)]: raises [IndexError] on an empty sequence. *)
Definition random_choice {A : Type} (src : RandomSource) (l : list A) (st : RandomState)
    : Exn + (A * RandomState) :=
  match l !! unit_index (py_draw src (py_pos st)) (length l) with
  | Some x => inr (x, py_advance 1 st)
  | None => inl IndexError
  end.

(** [random.shuffle(x)] draws once per position but the first; the code
    never reads the shuffled list, so only the consumption is kept. *)
Definition random_shuffle {A : Type} (l : list A) (st : RandomState) : RandomState :=
  py_advance (length l - 1) st.

(** [searchsorted(cumsum(p), u, side='right')] *)
Fixpoint cdf_index (u acc : Q) (ps : list Q) : nat :=
  match ps with
  | [] => 0
  | x :: rest =>
      if Qle_bool (acc + x) u then S (cdf_index u (acc + x)%Q rest) else 0
  end.

(** [numpy.random.choice(a, p=p)]: [a] must not be empty; a given [p] must
    have the size of [a], hold no nan, no negative entry, and sum to 1. *)
Definition np_random_choice {A : Type} (src : RandomSource) (a : list A)
    (p : option (list NpFloat)) (st : RandomState) : Exn + (A * RandomState) :=
  if length a =? 0 then inl ValueError
  else
    let u := np_draw src (np_pos st) in
    match p with
    | None =>
        match a !! unit_index u (length a) with
        | Some x => inr (x, np_advance 1 st)
        | None => inl IndexError
        end
    | Some probs =>
        if negb (length probs =? length a) then inl ValueError
        else
          match np_values probs with
          | None => inl ValueError
          | Some ps =>
              if existsb (fun x => negb (Qle_bool 0 x)) ps then inl ValueError
              else if negb (Qeq_bool (Qsum ps) 1) then inl ValueError
              else
                match a !! cdf_index u 0 ps with
                | Some x => inr (x, np_advance 1 st)
                | None => inl IndexError
                end
          end
    end.

(** ** Generators *)

(** What a walk yields: a vertex label, or an igraph [Vertex] object. *)
Inductive Item : Type :=
| Label (s : string)
| Vertex (v : nat).

Record Trace : Type := {
  emitted : list Item;
  raised : option Exn;
  final : RandomState
}.

Definition stop (st : RandomState) : Trace :=
  {| emitted := []; raised := None; final := st |}.

Definition raise (e : Exn) (st : RandomState) : Trace :=
  {| emitted := []; raised := Some e; final := st |}.

Definition yield (x : Item) (t : Trace) : Trace :=
  {| emitted := x :: emitted t; raised := raised t; final := final t |}.

(** ** [nrl.walker.walkers] *)

Module StandardRandomWalker.

(** The [while] loop; [steps] bounds the iterations for which
    [path_length < max_path_length] holds, [path_length] starting at 1. *)
Fixpoint walk_loop (src : RandomSource) (g : Graph) (steps : nat) (tail : nat)
    (st : RandomState) : Trace :=
  match steps with
  | O => stop st
  | S n =>
      if 0 <? neighborhood_size g tail then
        match random_choice src (neighbors g tail) st with
        | inl e => raise e st
        | inr (tail', st') => yield (Label (vlabel g tail')) (walk_loop src g n tail' st')
        end
      else stop st
  end.

Definition get_igraph_walk (params : RandomWalkParameters) (src : RandomSource)
    (g : Graph) (vertex : nat) (st : RandomState) : Trace :=
  yield (Label (vlabel g vertex))
    (walk_loop src g (Z.to_nat (max_path_length params - 1)) vertex st).

End StandardRandomWalker.

Module RestartingRandomWalker.

(** [vertex if self.restart_probability <= random.random()
     else random.choice(tail.neighbors())] *)
Definition next_tail (params : RandomWalkParameters) (src : RandomSource) (g : Graph)
    (vertex tail : nat) (st : RandomState) : Exn + (nat * RandomState) :=
  let '(r, st1) := random_random src st in
  if Qle_bool (restart_probability params) r then inr (vertex, st1)
  else random_choice src (neighbors g tail) st1.

Fixpoint walk_loop (params : RandomWalkParameters) (src : RandomSource) (g : Graph)
    (steps : nat) (vertex tail : nat) (st : RandomState) : Trace :=
  match steps with
  | O => stop st
  | S n =>
      if 0 <? neighborhood_size g tail then
        match next_tail params src g vertex tail st with
        | inl e => raise e st
        | inr (tail', st') =>
            yield (Label (vlabel g tail')) (walk_loop params src g n vertex tail' st')
        end
      else stop st
  end.

Definition get_igraph_walk (params : RandomWalkParameters) (src : RandomSource)
    (g : Graph) (vertex : nat) (st : RandomState) : Trace :=
  yield (Label (vlabel g vertex))
    (walk_loop params src g (Z.to_nat (max_path_length params - 1)) vertex vertex st).

End RestartingRandomWalker.

Module BiasedRandomWalker.

Definition _check (params : RandomWalkParameters) (vertex : nat) : bool :=
  match sampling_strategy params !! key_of_vertex vertex with
  | None => false
  | Some s =>
      match s_num_walks s with
      | None => false
      | Some n => (n <=? number_paths params)%Z
      end
  end.

(** The walk length of a vertex: its ['walk_length'] override, else the
    global [max_path_length]. *)
Definition walk_length (params : RandomWalkParameters) (vertex : nat) : Z :=
  match sampling_strategy params !! key_of_vertex vertex with
  | Some s => default (max_path_length params) (s_walk_length s)
  | None => max_path_length params
  end.

(** [vertex['first_travel_key']]: igraph raises [KeyError] when no vertex
    of the graph has the attribute and gives [None] for a vertex on
    which it was never set. *)
Definition first_travel (g : Graph) (vertex : nat) : Exn + option (list NpFloat) :=
  if decide (g_first_travel_key g = ∅) then inl KeyError
  else inr (g_first_travel_key g !! vertex).

(** [tail['probabilities'][name]] *)
Definition transition (g : Graph) (tail : nat) (name : string) : Exn + list NpFloat :=
  match g_probabilities g !! tail with
  | None => inl TypeError
  | Some d =>
      match d !! name with
      | None => inl KeyError
      | Some probs => inr probs
      end
  end.

(** The [while path_length < walk_length] loop, [path_length] starting
    at 2; [steps] bounds its iterations. *)
Fixpoint walk_loop (src : RandomSource) (g : Graph) (steps : nat)
    (double_tail tail : nat) (st : RandomState) : Trace :=
  match steps with
  | O => stop st
  | S n =>
      let nbrs := neighbors g tail in
      if length nbrs =? 0 then stop st
      else
        match transition g tail (vname g double_tail) with
        | inl e => raise e st
        | inr probs =>
            match np_random_choice src nbrs (Some probs) st with
            | inl e => raise e st
            | inr (tail', st') => yield (Vertex tail') (walk_loop src g n tail tail' st')
            end
        end
  end.

(** A drawn [Vertex] object is truthy, so [if not tail: return] never
    fires and is left out. *)
Definition get_igraph_walk (params : RandomWalkParameters) (src : RandomSource)
    (g : Graph) (vertex : nat) (st : RandomState) : Trace :=
  if (max_path_length params <? 2)%Z then raise ValueError st
  else if _check params vertex then stop st
  else
    yield (Vertex vertex)
      (match first_travel g vertex with
       | inl e => raise e st
       | inr probs =>
           match np_random_choice src (neighbors g vertex) probs st with
           | inl e => raise e st
           | inr (tail, st') =>
               yield (Vertex tail)
                 (walk_loop src g (Z.to_nat (walk_length params vertex - 2)) vertex tail st')
           end
       end).

End BiasedRandomWalker.

(** ** [nrl.walker.utils.AbstractRandomWalker] *)

Module AbstractRandomWalker.
Section get_walks.
(** The abstract method [get_walk]. *)
Variable get_walk : Graph -> nat -> RandomState -> Trace.

(** [for vertex in graph.vs: yield self.get_walk(graph, vertex)], each
    yielded walk being consumed before the next one is asked for. *)
Fixpoint walks_from (g : Graph) (vertices : list nat) (st : RandomState)
    : list Trace * RandomState :=
  match vertices with
  | [] => ([], st)
  | vertex :: rest =>
      let t := get_walk g vertex st in
      let r := walks_from g rest (final t) in
      (t :: r.1, r.2)
  end.

Fixpoint repeat_walks (g : Graph) (repetitions : nat) (st : RandomState) : list Trace :=
  match repetitions with
  | O => []
  | S n =>
      let st1 := random_shuffle (vs g) st in
      let r := walks_from g (vs g) st1 in
      r.1 ++ repeat_walks g n r.2
  end.

Definition get_walks (params : RandomWalkParameters) (g : Graph) (st : RandomState)
    : list Trace :=
  repeat_walks g (Z.to_nat (number_paths params)) st.
End get_walks.
End AbstractRandomWalker.

(** ** [Walker] *)

Inductive Sampler : Type := Uniform | Restarting | SecondOrderBiased.

Module Walker.

(** Modelled from the spec: the class [Walker] of [nrl.walker.utils],
    which the samplers extend, is not among the sources.  Its [get_walk]
    produces one walk of the configured sampler from a start vertex; for
    an igraph graph that is the sampler's [get_igraph_walk]. *)
Definition get_walk (kind : Sampler) (params : RandomWalkParameters) (src : RandomSource)
    (g : Graph) (vertex : nat) (st : RandomState) : Trace :=
  match kind with
  | Uniform => StandardRandomWalker.get_igraph_walk params src g vertex st
  | Restarting => RestartingRandomWalker.get_igraph_walk params src g vertex st
  | SecondOrderBiased => BiasedRandomWalker.get_igraph_walk params src g vertex st
  end.

Definition get_walks (kind : Sampler) (params : RandomWalkParameters) (src : RandomSource)
    (g : Graph) (st : RandomState) : list Trace :=
  AbstractRandomWalker.get_walks (get_walk kind params src) params g st.

End Walker.

(** ** The transition weights in the words of the specification *)

(** [edgeWeight(v, x)]: the weight of the first edge between [v] and [x]. *)
Definition spec_edge_weight (g : Graph) (v x : nat) : Q :=
  match select_between g v x with
  | [] => 0%Q
  | e :: _ => e_weight e
  end.

(** Whether the graph records an edge from [u] to [x]. *)
Definition spec_has_edge (g : Graph) (u x : nat) : bool :=
  bool_decide (select_source_target g u x ≠ []).

(** The unnormalized second-order weight of the neighbor [x] of [v] when
    the walk came from [u]: the return case first, then the triangle case,
    then the exploration case. *)
Definition spec_transition_weight (params : RandomWalkParameters) (g : Graph)
    (u v x : nat) : Q :=
  if bool_decide (x = u) then
    (spec_edge_weight g v x / Node2VecModel._get_p params (vname g v))%Q
  else if spec_has_edge g u x then spec_edge_weight g v x
  else (spec_edge_weight g v x / Node2VecModel._get_q params (vname g v))%Q.

(** The distributions the specification asks for at [(v, previous = u)]
    and for the first step from [v]. *)
Definition spec_transition (params : RandomWalkParameters) (g : Graph) (u v : nat)
    : list NpFloat :=
  np_normalize (map (spec_transition_weight params g u v) (neighbors g v)).

Definition spec_first_travel (g : Graph) (v : nat) : list NpFloat :=
  np_normalize (map (spec_edge_weight g v) (neighbors g v)).

(** ** Checkable conditions on the inputs *)

Definition Qlt_bool (a b : Q) : bool := negb (Qle_bool b a).

(** A distribution without nan/inf whose entries add up to exactly 1. *)
Definition sums_to_one (d : list NpFloat) : bool :=
  match np_values d with
  | Some ps => Qeq_bool (Qsum ps) 1
  | None => false
  end.

Definition positive_weights (g : Graph) : bool :=
  forallb (fun e => Qlt_bool 0 (e_weight e)) (g_es g).

(** The resolved [p] and [q] of every vertex are positive. *)
Definition positive_bias (params : RandomWalkParameters) (g : Graph) : bool :=
  forallb (fun v => Qlt_bool 0 (Node2VecModel._get_p params (vname g v))
                    && Qlt_bool 0 (Node2VecModel._get_q params (vname g v))) (vs g).

(** The resolved [p] and [q] of every vertex differ from zero. *)
Definition nonzero_bias (params : RandomWalkParameters) (g : Graph) : bool :=
  forallb (fun v => negb (Qeq_bool (Node2VecModel._get_p params (vname g v)) 0)
                    && negb (Qeq_bool (Node2VecModel._get_q params (vname g v)) 0)) (vs g).

Definition unique_names (g : Graph) : bool :=
  bool_decide (NoDup (v_name <$> g_vs g)).


(** Two random sources giving the same draws. *)
Definition same_draws (a b : RandomSource) : Prop :=
  ∀ i : nat, py_draw a i = py_draw b i ∧ np_draw a i = np_draw b i.

(** Every (source, current_node) pair in the order in which
    [_precompute_probs] visits them. *)
Definition visited_pairs (g : Graph) : list (nat * nat) :=
  flat_map (fun source => map (pair source) (neighbors g source)) (vs g).

(** ** Example inputs *)

Definition mk_vertex (s : string) : VertexAttrs := {| v_name := s; v_label := s |}.

Definition mk_edge (a b : nat) (w : Q) : Edge :=
  {| e_source := a; e_target := b; e_weight := w |}.

Definition mk_graph (directed : bool) (names : list string) (edges : list Edge) : Graph :=
  {| g_directed := directed;
     g_vs := map mk_vertex names;
     g_es := edges;
     g_probabilities := ∅;
     g_first_travel_key := ∅ |}.

Definition mk_params (n len : Z) (rp p q : Q) (strategy : gmap (nat + string) Strategy)
    (weighted : bool) : RandomWalkParameters :=
  {| number_paths := n;
     max_path_length := len;
     restart_probability := rp;
     rw_p := p;
     rw_q := q;
     sampling_strategy := strategy;
     is_directed := false;
     is_weighted := weighted |}.

(** The undirected triangle A - B - C with edges of weight 1. *)
Definition triangle : Graph :=
  mk_graph false ["A"; "B"; "C"]%string [mk_edge 0 1 1; mk_edge 1 2 1; mk_edge 0 2 1].

(** The undirected path A - B with an edge of weight 3, and the isolated
    vertex C. *)
Definition path_and_isolated : Graph :=
  mk_graph false ["A"; "B"; "C"]%string [mk_edge 0 1 3].

(** The directed cycle A -> B -> C -> A with edges of weight 1. *)
Definition cycle : Graph :=
  mk_graph true ["A"; "B"; "C"]%string [mk_edge 0 1 1; mk_edge 1 2 1; mk_edge 2 0 1].

(** A single vertex and no edge. *)
Definition lonely : Graph := mk_graph false ["A"]%string [].

(** Two vertices that bear the same name, joined by one edge. *)
Definition twins : Graph := mk_graph false ["A"; "A"]%string [mk_edge 0 1 1].

Definition bias_params : RandomWalkParameters := mk_params 10 40 0 (1 # 2) 2 ∅ true.

Definition negative_p_params : RandomWalkParameters := mk_params 10 40 0 (-1) 1 ∅ true.

Definition zero_p_params : RandomWalkParameters := mk_params 10 40 0 0 1 ∅ true.

Definition unweighted_params : RandomWalkParameters := mk_params 1 3 0 1 1 ∅ false.

(** One walk per vertex, walks of at most three vertices. *)
Definition short_params : RandomWalkParameters := mk_params 1 3 0 1 1 ∅ true.

(** One walk per vertex, walks of at most one vertex. *)
Definition unit_params : RandomWalkParameters := mk_params 1 1 0 1 1 ∅ true.

(** Vertex A (index 0) asks for one walk only. *)
Definition skip_strategy : gmap (nat + string) Strategy :=
  {[ key_of_vertex 0 := {| s_p := None; s_q := None; s_num_walks := Some 1%Z;
                           s_walk_length := None |} ]}.

Definition skip_params : RandomWalkParameters := mk_params 1 3 0 1 1 skip_strategy true.

(** Vertex A (index 0) asks for walks of two vertices. *)
Definition length_strategy : gmap (nat + string) Strategy :=
  {[ key_of_vertex 0 := {| s_p := None; s_q := None; s_num_walks := None;
                           s_walk_length := Some 2%Z |} ]}.

Definition length_params : RandomWalkParameters := mk_params 1 3 0 1 1 length_strategy true.

Definition half_source : RandomSource :=
  {| py_draw := fun _ => (1 # 2)%Q; np_draw := fun _ => (1 # 2)%Q |}.

Definition half_source' : RandomSource :=
  {| py_draw := fun i => (Z.of_nat (i - i) + 1 # 2)%Q; np_draw := fun _ => (1 # 2)%Q |}.

Definition start_state : RandomState := {| py_pos := 0; np_pos := 0 |}.

(** The graph a constructor call leaves behind ([g] itself when it raised). *)
Definition built (params : RandomWalkParameters) (g : Graph) : Graph :=
  match Node2VecModel.__init__ params g with
  | inr g' => g'
  | inl _ => g
  end.

(** ** Reading the results *)

(** [vertex v]['probabilities'][name] and [vertex v]['first_travel_key'] on
    the graph a constructor call leaves behind. *)
Definition stored_transition (r : Exn + Graph) (v : nat) (name : string)
    : option (list NpFloat) :=
  match r with
  | inr g => g_probabilities g !! v ≫= (fun t => t !! name)
  | inl _ => None
  end.

Definition stored_first_travel (r : Exn + Graph) (v : nat) : option (list NpFloat) :=
  match r with
  | inr g => g_first_travel_key g !! v
  | inl _ => None
  end.

(** Whether a stored array is, entry by entry, the given distribution. *)
Definition is_distribution (d : option (list NpFloat)) (expected : list Q) : bool :=
  match d ≫= np_values with
  | Some ps =>
      (length ps =? length expected)
      && forallb (fun pq => Qeq_bool pq.1 pq.2) (combine ps expected)
  | None => false
  end.

(** A walk that yielded nothing. *)
Definition is_empty_walk (t : Trace) : bool :=
  match emitted t with
  | [] => true
  | _ :: _ => false
  end.

(** The vertices for which the second-order walker generates no walk. *)
Definition skipped_vertices (params : RandomWalkParameters) (g : Graph) : list nat :=
  List.filter (BiasedRandomWalker._check params) (vs g).

(** ** The table builder as a state transformer *)

(** Graphs with the same vertices and edges (the attribute tables may
    differ). *)
Definition same_shape (g g' : Graph) : Prop :=
  g_directed g' = g_directed g ∧ g_vs g' = g_vs g ∧ g_es g' = g_es g.

(** The state of the double loop of [_precompute_probs] over [g]: the graph
    keeps its shape and every vertex holds a ['probabilities'] dict. *)
Definition tables_ready (g : Graph) (st : Graph * gset string) : Prop :=
  same_shape g st.1 ∧ ∀ v, v < vcount g → is_Some (g_probabilities st.1 !! v).

(** What one visit of the pair [(source, current_node)] stores when no
    division fails. *)
Definition spec_step (params : RandomWalkParameters) (g : Graph)
    (st : Graph * gset string) (pair : nat * nat) : Graph * gset string :=
  let source := pair.1 in
  let current_node := pair.2 in
  let g1 :=
    with_probabilities st.1
      (<[current_node := <[vname g source := spec_transition params g source current_node]>
                           (default ∅ (g_probabilities st.1 !! current_node))]>
         (g_probabilities st.1)) in
  if decide (vname g current_node ∈ st.2) then (g1, st.2)
  else (with_first_travel_key g1
          (<[current_node := spec_first_travel g current_node]> (g_first_travel_key g1)),
        {[vname g current_node]} ∪ st.2).

(** The tables after the pairs [done_pairs] have been visited: every visited
    pair has its second-order distribution, and every vertex whose name is
    marked done has its first-travel distribution. *)
Definition tables_hold (params : RandomWalkParameters) (g : Graph)
    (done_pairs : list (nat * nat)) (st : Graph * gset string) : Prop :=
  tables_ready g st
  ∧ (∀ s c, In (s, c) done_pairs →
       vname g c ∈ st.2
       ∧ ∃ t, g_probabilities st.1 !! c = Some t
              ∧ t !! vname g s = Some (spec_transition params g s c))
  ∧ (∀ c, c < vcount g → vname g c ∈ st.2 →
       g_first_travel_key st.1 !! c = Some (spec_first_travel g c)).

(** ** Walks as paths *)

(** The draws of both generators lie in the unit interval. *)
Definition unit_draws (src : RandomSource) : Prop :=
  ∀ i : nat, (0 <= py_draw src i)%Q ∧ (py_draw src i < 1)%Q
             ∧ (0 <= np_draw src i)%Q ∧ (np_draw src i < 1)%Q.

(** Each vertex of [path] is a neighbor of the vertex before it ([prev]
    for the first one) or, when a [home] vertex is given, is [home]. *)
Fixpoint is_path (g : Graph) (home : option nat) (prev : nat) (path : list nat) : bool :=
  match path with
  | [] => true
  | v :: rest =>
      (bool_decide (v ∈ neighbors g prev) || bool_decide (home = Some v))
      && is_path g home v rest
  end.

(** What a walk over the vertices [path] yields, as labels and as
    [Vertex] objects. *)
Definition labels_of (g : Graph) (path : list nat) : list Item :=
  map (fun v => Label (vlabel g v)) path.

Definition vertices_of (path : list nat) : list Item := map Vertex path.

(** ** Comparing stored arrays *)

(** Equal entries of two arrays: equal rationals, or nan/inf on both
    sides. *)
Definition np_eqb (x y : NpFloat) : bool :=
  match x, y with
  | Finite a, Finite b => Qeq_bool a b
  | NotFinite, NotFinite => true
  | _, _ => false
  end.

(** Two arrays of the same length with equal entries. *)
Definition same_distribution (d1 d2 : list NpFloat) : bool :=
  (length d1 =? length d2) && forallb (fun xy => np_eqb xy.1 xy.2) (combine d1 d2).

(** The resolved [p] and [q] of every vertex are 1. *)
Definition unit_bias (params : RandomWalkParameters) (g : Graph) : bool :=
  forallb (fun v => Qeq_bool (Node2VecModel._get_p params (vname g v)) 1
                    && Qeq_bool (Node2VecModel._get_q params (vname g v)) 1) (vs g).

(** The uniform distribution over [n] candidates. *)
Definition uniform_distribution (n : nat) : list Q :=
  repeat (1 / inject_Z (Z.of_nat n))%Q n.

(** * Properties *)

(** ** Rational arithmetic *)

Lemma Qlt_bool_iff (a b : Q) : Qlt_bool a b = true ↔ (a < b)%Q.
Proof.
  unfold Qlt_bool. rewrite negb_true_iff. split.
  - intros H. apply Qnot_le_lt. intros Hle. apply Qle_bool_iff in Hle. congruence.
  - intros H. destruct (Qle_bool b a) eqn:E; [|reflexivity].
    apply Qle_bool_iff in E. exfalso. exact (Qlt_not_le _ _ H E).
Qed.

Lemma Qeq_bool_false (a b : Q) : Qeq_bool a b = false ↔ ¬ (a == b)%Q.
Proof.
  split.
  - intros H Heq. apply Qeq_bool_iff in Heq. congruence.
  - intros H. destruct (Qeq_bool a b) eqn:E; [|reflexivity].
    apply Qeq_bool_iff in E. contradiction.
Qed.

Lemma py_div_nonzero (a b : Q) : Qeq_bool b 0 = false → py_div a b = inr (a / b)%Q.
Proof. intros H. unfold py_div. rewrite H. reflexivity. Qed.

Lemma py_div_zero (a b : Q) : Qeq_bool b 0 = true → py_div a b = inl ZeroDivisionError.
Proof. intros H. unfold py_div. rewrite H. reflexivity. Qed.

Lemma Qsum_app (l1 l2 : list Q) : (Qsum (l1 ++ l2) == Qsum l1 + Qsum l2)%Q.
Proof.
  induction l1 as [|x l1 IH]; simpl.
  - ring.
  - rewrite IH. ring.
Qed.

Lemma Qsum_scaled (s : Q) (l : list Q) :
  (Qsum (map (fun x => x / s) l) == Qsum l / s)%Q.
Proof.
  induction l as [|x l IH]; simpl.
  - unfold Qdiv. ring.
  - rewrite IH. unfold Qdiv. ring.
Qed.

Lemma Qsum_positive (l : list Q) :
  l ≠ [] → Forall (fun x => (0 < x)%Q) l → (0 < Qsum l)%Q.
Proof.
  intros Hne Hall. induction Hall as [|x l Hx Hl IH]; [congruence|].
  simpl. destruct l as [|y l].
  - simpl. lra.
  - assert (0 < Qsum (y :: l))%Q by (apply IH; discriminate). lra.
Qed.

(** ** Normalisation *)

Lemma np_values_finite (f : Q -> Q) (l : list Q) :
  np_values (map (fun x => Finite (f x)) l) = Some (map f l).
Proof.
  induction l as [|x l IH]; simpl; [reflexivity|].
  rewrite IH. reflexivity.
Qed.

Lemma np_normalize_length (l : list Q) : length (np_normalize l) = length l.
Proof. unfold np_normalize. apply length_map. Qed.

Lemma np_normalize_nonzero (l : list Q) :
  ¬ (Qsum l == 0)%Q →
  np_values (np_normalize l) = Some (map (fun x => x / Qsum l)%Q l).
Proof.
  intros H. unfold np_normalize. apply Qeq_bool_false in H. rewrite H.
  apply np_values_finite.
Qed.

Lemma np_normalize_sums_to_one (l : list Q) :
  ¬ (Qsum l == 0)%Q → sums_to_one (np_normalize l) = true.
Proof.
  intros H. unfold sums_to_one. rewrite np_normalize_nonzero by exact H.
  apply Qeq_bool_iff. rewrite Qsum_scaled. field. exact H.
Qed.

(** ** The graph interface *)

Lemma count_between_sym (g : Graph) (v w : nat) :
  count_between g v w = count_between g w v.
Proof. unfold count_between. lia. Qed.

Lemma In_neighbors (g : Graph) (v x : nat) :
  In x (neighbors g v) ↔ x < vcount g ∧ 0 < count_between g v x.
Proof.
  unfold neighbors, vs. rewrite in_flat_map. split.
  - intros (w & Hw & Hx). apply in_seq in Hw.
    assert (x = w) by (eapply repeat_spec; exact Hx). subst w.
    split; [lia|]. destruct (count_between g v x); [contradiction|lia].
  - intros [Hlt Hpos]. exists x. split.
    + apply in_seq. lia.
    + destruct (count_between g v x); [lia|]. simpl. left. reflexivity.
Qed.

(** Adjacency in mode "all" is symmetric. *)
Lemma neighbors_sym (g : Graph) (v x : nat) :
  v < vcount g → In x (neighbors g v) → In v (neighbors g x).
Proof.
  intros Hv Hx. apply In_neighbors in Hx as [_ Hpos]. apply In_neighbors.
  rewrite count_between_sym. auto.
Qed.

Lemma neighbors_lt (g : Graph) (v x : nat) : In x (neighbors g v) → x < vcount g.
Proof. intros Hx. apply In_neighbors in Hx. tauto. Qed.

Lemma filter_either_nonempty {A : Type} (f h : A → bool) (l : list A) :
  0 < length (List.filter f l) + length (List.filter h l) →
  List.filter (fun e => f e || h e) l ≠ [].
Proof.
  induction l as [|a l IH]; simpl; [lia|].
  destruct (f a), (h a); simpl; try discriminate. exact IH.
Qed.

(** A neighbor is joined to the vertex by an edge, so the weight lookup
    [edge['weight'][0]] finds one. *)
Lemma first_edge_between (g : Graph) (v x : nat) :
  In x (neighbors g v) →
  ∃ e, first_item (select_between g v x) = inr e ∧ e_weight e = spec_edge_weight g v x
       ∧ In e (g_es g).
Proof.
  intros Hx. apply In_neighbors in Hx as [_ Hpos].
  pose proof (filter_either_nonempty (joins v x) (joins x v) (g_es g) Hpos) as Hne.
  unfold spec_edge_weight, select_between.
  destruct (List.filter _ (g_es g)) as [|e rest] eqn:E; [congruence|].
  exists e. repeat split.
  assert (In e (e :: rest)) as Hin by (left; reflexivity).
  rewrite <- E in Hin. apply filter_In in Hin. tauto.
Qed.

(** ** The unnormalized weights *)

Lemma compute_prob_spec (params : RandomWalkParameters) (g : Graph) (u v x : nat) :
  Qeq_bool (Node2VecModel._get_p params (vname g v)) 0 = false →
  Qeq_bool (Node2VecModel._get_q params (vname g v)) 0 = false →
  Node2VecModel._compute_prob g u x
    (Node2VecModel._get_p params (vname g v)) (Node2VecModel._get_q params (vname g v))
    (spec_edge_weight g v x)
  = inr (spec_transition_weight params g u v x).
Proof.
  intros Hp Hq. unfold Node2VecModel._compute_prob, spec_transition_weight, spec_has_edge.
  destruct (Nat.eqb_spec x u) as [->|Hne].
  - rewrite bool_decide_eq_true_2 by reflexivity. apply py_div_nonzero, Hp.
  - rewrite bool_decide_eq_false_2 by exact Hne.
    destruct (bool_decide_reflect (select_source_target g u x ≠ [])) as [H|H].
    + destruct (select_source_target g u x); [congruence|reflexivity].
    + destruct (select_source_target g u x) as [|e rest].
      * apply py_div_nonzero, Hq.
      * exfalso. apply H. discriminate.
Qed.

Lemma weights_loop_spec (params : RandomWalkParameters) (g : Graph) (u v : nat)
    (done : gset string) (targets : list nat) (uw ftw : list Q) :
  Qeq_bool (Node2VecModel._get_p params (vname g v)) 0 = false →
  Qeq_bool (Node2VecModel._get_q params (vname g v)) 0 = false →
  (∀ x, In x targets → In x (neighbors g v)) →
  Node2VecModel.weights_loop params g u v done targets uw ftw
  = inr (uw ++ map (spec_transition_weight params g u v) targets,
         ftw ++ (if decide (vname g v ∈ done) then []
                 else map (spec_edge_weight g v) targets)).
Proof.
  intros Hp Hq. revert uw ftw.
  induction targets as [|x targets IH]; intros uw ftw Hin; simpl.
  - rewrite app_nil_r. destruct (decide _); rewrite app_nil_r; reflexivity.
  - destruct (first_edge_between g v x) as (e & He & Hw & _).
    { apply Hin. left. reflexivity. }
    rewrite He. simpl. rewrite Hw, compute_prob_spec by assumption. simpl.
    rewrite IH by (intros y Hy; apply Hin; right; exact Hy).
    rewrite <- !app_assoc. simpl.
    destruct (decide _); [reflexivity|]. rewrite <- app_assoc. reflexivity.
Qed.

Lemma compute_unnormalized_weights_spec (params : RandomWalkParameters) (g : Graph)
    (u v : nat) (done : gset string) :
  Qeq_bool (Node2VecModel._get_p params (vname g v)) 0 = false →
  Qeq_bool (Node2VecModel._get_q params (vname g v)) 0 = false →
  Node2VecModel._compute_unnormalized_weights params g u v done
  = inr (map (spec_transition_weight params g u v) (neighbors g v),
         if decide (vname g v ∈ done) then []
         else map (spec_edge_weight g v) (neighbors g v)).
Proof.
  intros Hp Hq. unfold Node2VecModel._compute_unnormalized_weights.
  rewrite weights_loop_spec by auto. reflexivity.
Qed.

(** ** Graphs of the same shape *)

Ltac shape H :=
  destruct H as (Hshape_d & Hshape_v & Hshape_e);
  unfold spec_first_travel, spec_transition, spec_transition_weight, spec_has_edge,
    spec_edge_weight, select_source_target, select_between, neighbors, vs, vcount,
    count_between, vname, vlabel;
  rewrite ?Hshape_d, ?Hshape_v, ?Hshape_e; reflexivity.

Lemma same_shape_refl (g : Graph) : same_shape g g.
Proof. repeat split. Qed.

Lemma vcount_shape (g g' : Graph) : same_shape g g' → vcount g' = vcount g.
Proof. intros H. shape H. Qed.

Lemma vs_shape (g g' : Graph) : same_shape g g' → vs g' = vs g.
Proof. intros H. shape H. Qed.

Lemma vname_shape (g g' : Graph) (v : nat) : same_shape g g' → vname g' v = vname g v.
Proof. intros H. shape H. Qed.

Lemma neighbors_shape (g g' : Graph) (v : nat) :
  same_shape g g' → neighbors g' v = neighbors g v.
Proof. intros H. shape H. Qed.

Lemma spec_transition_shape (params : RandomWalkParameters) (g g' : Graph) (u v : nat) :
  same_shape g g' → spec_transition params g' u v = spec_transition params g u v.
Proof. intros H. shape H. Qed.

Lemma spec_first_travel_shape (g g' : Graph) (v : nat) :
  same_shape g g' → spec_first_travel g' v = spec_first_travel g v.
Proof. intros H. shape H. Qed.

Lemma vname_with_probabilities (g : Graph) (m : gmap nat (gmap string (list NpFloat)))
    (v : nat) : vname (with_probabilities g m) v = vname g v.
Proof. reflexivity. Qed.

Lemma nonzero_bias_at (params : RandomWalkParameters) (g : Graph) (v : nat) :
  nonzero_bias params g = true → v < vcount g →
  Qeq_bool (Node2VecModel._get_p params (vname g v)) 0 = false
  ∧ Qeq_bool (Node2VecModel._get_q params (vname g v)) 0 = false.
Proof.
  intros H Hv. unfold nonzero_bias in H. rewrite forallb_forall in H.
  specialize (H v). rewrite andb_true_iff, !negb_true_iff in H. apply H.
  unfold vs. apply in_seq. lia.
Qed.

(** ** One visit of the inner loop *)

Lemma spec_step_ready (params : RandomWalkParameters) (g : Graph)
    (st : Graph * gset string) (pair : nat * nat) :
  tables_ready g st → tables_ready g (spec_step params g st pair).
Proof.
  intros [Hs Hd]. unfold spec_step. destruct (decide _); split; simpl.
  - exact Hs.
  - intros v Hv. destruct (decide (pair.2 = v)) as [->|Hne].
    + rewrite lookup_insert_eq. eauto.
    + rewrite lookup_insert_ne by exact Hne. auto.
  - exact Hs.
  - intros v Hv. destruct (decide (pair.2 = v)) as [->|Hne].
    + rewrite lookup_insert_eq. eauto.
    + rewrite lookup_insert_ne by exact Hne. auto.
Qed.

Lemma precompute_step_spec (params : RandomWalkParameters) (g : Graph)
    (source current_node : nat) (st : Graph * gset string) :
  nonzero_bias params g = true → tables_ready g st →
  In current_node (neighbors g source) →
  Node2VecModel.precompute_step params source current_node st
  = inr (spec_step params g st (source, current_node)).
Proof.
  intros Hnz [Hs Hd] Hin. pose proof (neighbors_lt _ _ _ Hin) as Hlt.
  destruct (nonzero_bias_at params g current_node Hnz Hlt) as [Hp Hq].
  destruct (Hd _ Hlt) as [d Hdict].
  unfold Node2VecModel.precompute_step, spec_step.
  rewrite compute_unnormalized_weights_spec
    by (rewrite (vname_shape g st.1) by exact Hs; assumption).
  unfold Node2VecModel.store_probabilities. simpl. rewrite Hdict. simpl.
  fold (spec_transition params st.1 source current_node).
  rewrite !vname_with_probabilities.
  rewrite !(vname_shape g st.1) by exact Hs.
  rewrite (spec_transition_shape params g st.1) by exact Hs.
  destruct (decide (vname g current_node ∈ st.2)); [reflexivity|].
  fold (spec_first_travel st.1 current_node).
  rewrite (spec_first_travel_shape g st.1) by exact Hs. reflexivity.
Qed.

(** ** The double loop of [_precompute_probs] *)

Lemma fold_spec_step_ready (params : RandomWalkParameters) (g : Graph)
    (pairs : list (nat * nat)) (st : Graph * gset string) :
  tables_ready g st → tables_ready g (fold_left (spec_step params g) pairs st).
Proof.
  revert st. induction pairs as [|pr pairs IH]; intros st Hst; simpl; [exact Hst|].
  apply IH, spec_step_ready, Hst.
Qed.

Lemma inner_loop_spec (params : RandomWalkParameters) (g : Graph) (source : nat)
    (currents : list nat) (st : Graph * gset string) :
  nonzero_bias params g = true → tables_ready g st →
  (∀ c, In c currents → In c (neighbors g source)) →
  foldE (Node2VecModel.precompute_step params source) currents st
  = inr (fold_left (spec_step params g) (map (pair source) currents) st).
Proof.
  intros Hnz. revert st.
  induction currents as [|c currents IH]; intros st Hst Hin; simpl; [reflexivity|].
  rewrite (precompute_step_spec params g) by (auto; apply Hin; left; reflexivity).
  simpl. apply IH.
  - apply spec_step_ready, Hst.
  - intros c' Hc'. apply Hin. right. exact Hc'.
Qed.

Lemma outer_loop_spec (params : RandomWalkParameters) (g : Graph) (sources : list nat)
    (st : Graph * gset string) :
  nonzero_bias params g = true → tables_ready g st →
  foldE (fun source st =>
           foldE (Node2VecModel.precompute_step params source) (neighbors st.1 source) st)
    sources st
  = inr (fold_left (spec_step params g)
           (flat_map (fun source => map (pair source) (neighbors g source)) sources) st).
Proof.
  intros Hnz. revert st.
  induction sources as [|s sources IH]; intros st Hst; simpl; [reflexivity|].
  rewrite (neighbors_shape g st.1) by apply Hst.
  rewrite (inner_loop_spec params g) by auto. simpl.
  rewrite fold_left_app. apply IH. apply fold_spec_step_ready, Hst.
Qed.

Lemma reset_loop (nodes : list nat) (g : Graph) :
  let g' := fold_left (fun g node => with_probabilities g (<[node := ∅]> (g_probabilities g)))
              nodes g in
  same_shape g g'
  ∧ g_first_travel_key g' = g_first_travel_key g
  ∧ ∀ v, g_probabilities g' !! v
         = if bool_decide (v ∈ nodes) then Some ∅ else g_probabilities g !! v.
Proof.
  revert g. induction nodes as [|n nodes IH]; intros g; cbn [fold_left].
  - split; [apply same_shape_refl|]. split; [reflexivity|]. intros v.
    rewrite bool_decide_eq_false_2 by apply not_elem_of_nil. reflexivity.
  - destruct (IH (with_probabilities g (<[n := ∅]> (g_probabilities g))))
      as (Hs & Hf & Hp).
    split; [exact Hs|]. split; [exact Hf|]. intros v. rewrite Hp.
    cbn [g_probabilities with_probabilities].
    destruct (bool_decide_reflect (v ∈ nodes)) as [Hin|Hin].
    + rewrite bool_decide_eq_true_2 by (apply elem_of_cons; tauto). reflexivity.
    + destruct (decide (n = v)) as [->|Hne].
      * rewrite lookup_insert_eq, bool_decide_eq_true_2 by (apply elem_of_cons; tauto).
        reflexivity.
      * rewrite lookup_insert_ne by exact Hne.
        rewrite bool_decide_eq_false_2; [reflexivity|].
        rewrite elem_of_cons. intros [->|?]; tauto.
Qed.

Lemma reset_probabilities_spec (g : Graph) :
  same_shape g (Node2VecModel.reset_probabilities g)
  ∧ g_first_travel_key (Node2VecModel.reset_probabilities g) = g_first_travel_key g
  ∧ ∀ v, v < vcount g → g_probabilities (Node2VecModel.reset_probabilities g) !! v = Some ∅.
Proof.
  destruct (reset_loop (vs g) g) as (Hs & Hf & Hp).
  split; [exact Hs|]. split; [exact Hf|]. intros v Hv.
  unfold Node2VecModel.reset_probabilities. rewrite Hp.
  rewrite bool_decide_eq_true_2; [reflexivity|].
  apply list_elem_of_In. unfold vs. apply in_seq. lia.
Qed.

Lemma reset_ready (g : Graph) :
  tables_ready g (Node2VecModel.reset_probabilities g, ∅).
Proof.
  destruct (reset_probabilities_spec g) as (Hs & _ & Hp).
  split; [exact Hs|]. intros v Hv. simpl. rewrite Hp by exact Hv. eauto.
Qed.

(** With non-zero [p] and [q] no step raises, and the tables are those of
    the pure state transformer run over the visited pairs. *)
Lemma precompute_probs_spec (params : RandomWalkParameters) (g : Graph) :
  nonzero_bias params g = true →
  Node2VecModel._precompute_probs params g
  = inr (fold_left (spec_step params g) (visited_pairs g)
           (Node2VecModel.reset_probabilities g, ∅)).1.
Proof.
  intros Hnz. unfold Node2VecModel._precompute_probs.
  rewrite (outer_loop_spec params g) by (auto using reset_ready).
  simpl. rewrite (vs_shape g) by apply reset_probabilities_spec. reflexivity.
Qed.

(** ** The contents of the tables *)

Lemma vname_inj (g : Graph) (v w : nat) :
  unique_names g = true → v < vcount g → w < vcount g →
  vname g v = vname g w → v = w.
Proof.
  intros Hu Hv Hw Heq. apply bool_decide_eq_true_1 in Hu.
  destruct (lookup_lt_is_Some_2 (g_vs g) v Hv) as [a Ha].
  destruct (lookup_lt_is_Some_2 (g_vs g) w Hw) as [b Hb].
  unfold vname in Heq. rewrite Ha, Hb in Heq. simpl in Heq.
  apply (NoDup_lookup (v_name <$> g_vs g) v w (v_name a)); [exact Hu| |].
  - rewrite list_lookup_fmap, Ha. reflexivity.
  - rewrite list_lookup_fmap, Hb, Heq. reflexivity.
Qed.

Lemma spec_step_probabilities (params : RandomWalkParameters) (g : Graph)
    (st : Graph * gset string) (pr : nat * nat) :
  g_probabilities (spec_step params g st pr).1
  = <[pr.2 := <[vname g pr.1 := spec_transition params g pr.1 pr.2]>
                (default ∅ (g_probabilities st.1 !! pr.2))]> (g_probabilities st.1).
Proof. unfold spec_step. destruct (decide _); reflexivity. Qed.

Lemma spec_step_done (params : RandomWalkParameters) (g : Graph)
    (st : Graph * gset string) (pr : nat * nat) (name : string) :
  name ∈ (spec_step params g st pr).2 ↔ name = vname g pr.2 ∨ name ∈ st.2.
Proof.
  unfold spec_step. destruct (decide _) as [Hin|Hin]; simpl.
  - split; [tauto|]. intros [->|H]; assumption.
  - rewrite elem_of_union, elem_of_singleton. tauto.
Qed.

Lemma spec_step_tables (params : RandomWalkParameters) (g : Graph)
    (done_pairs : list (nat * nat)) (st : Graph * gset string) (pr : nat * nat) :
  unique_names g = true →
  (∀ s c, In (s, c) (done_pairs ++ [pr]) → s < vcount g ∧ c < vcount g) →
  tables_hold params g done_pairs st →
  tables_hold params g (done_pairs ++ [pr]) (spec_step params g st pr).
Proof.
  intros Hu Hvalid (Hready & Hprob & Hfirst). destruct pr as [s0 c0].
  assert (s0 < vcount g ∧ c0 < vcount g) as [Hs0 Hc0].
  { apply Hvalid, in_or_app. right. left. reflexivity. }
  split; [apply spec_step_ready, Hready|]. split.
  - intros s c Hin. rewrite spec_step_done, spec_step_probabilities. simpl.
    apply in_app_or in Hin as [Hin|[Heq|[]]].
    + destruct (Hprob s c Hin) as (Hdone & t & Ht & Hts).
      split; [right; exact Hdone|].
      destruct (decide (c0 = c)) as [->|Hne].
      * rewrite lookup_insert_eq, Ht. simpl. eexists. split; [reflexivity|].
        destruct (decide (vname g s0 = vname g s)) as [Hname|Hname].
        -- assert (s0 = s) as ->.
           { apply (vname_inj g); auto. apply (Hvalid s c), in_or_app. left. exact Hin. }
           apply lookup_insert_eq.
        -- rewrite lookup_insert_ne by exact Hname. exact Hts.
      * rewrite lookup_insert_ne by exact Hne. eauto.
    + injection Heq as <- <-. split; [left; reflexivity|].
      rewrite lookup_insert_eq. eexists. split; [reflexivity|]. apply lookup_insert_eq.
  - intros c Hc Hin. unfold spec_step in *. simpl in *.
    destruct (decide (vname g c0 ∈ st.2)) as [Hdone|Hdone]; simpl in *.
    + apply Hfirst; assumption.
    + destruct (decide (c0 = c)) as [->|Hne].
      * apply lookup_insert_eq.
      * rewrite lookup_insert_ne by exact Hne. apply Hfirst; [exact Hc|].
        apply elem_of_union in Hin as [Hin|Hin]; [|exact Hin].
        apply elem_of_singleton in Hin. exfalso. apply Hne.
        apply (vname_inj g); auto.
Qed.

Lemma fold_spec_step_tables (params : RandomWalkParameters) (g : Graph)
    (pairs : list (nat * nat)) (st : Graph * gset string) :
  unique_names g = true →
  (∀ s c, In (s, c) pairs → s < vcount g ∧ c < vcount g) →
  tables_hold params g [] st →
  tables_hold params g pairs (fold_left (spec_step params g) pairs st).
Proof.
  intros Hu. induction pairs as [|pr pairs IH] using rev_ind; intros Hvalid Hst.
  - exact Hst.
  - rewrite fold_left_app. simpl. apply spec_step_tables; [exact Hu|exact Hvalid|].
    apply IH; [|exact Hst]. intros s c Hin. apply Hvalid, in_or_app. left. exact Hin.
Qed.

Lemma In_visited_pairs (g : Graph) (s c : nat) :
  In (s, c) (visited_pairs g) ↔ s < vcount g ∧ In c (neighbors g s).
Proof.
  unfold visited_pairs. rewrite in_flat_map. split.
  - intros (s' & Hs' & Hin). apply in_map_iff in Hin as (c' & Heq & Hc').
    injection Heq as -> ->. split; [|exact Hc']. unfold vs in Hs'. apply in_seq in Hs'. lia.
  - intros [Hs Hc]. exists s. split.
    + unfold vs. apply in_seq. lia.
    + apply in_map. exact Hc.
Qed.

(** Without any condition on the names: after the pairs [pairs] have been
    visited, the dict of a visited vertex [c] holds, under the name of each
    source [s] it was visited from, the second-order distribution of [c]
    for a source that bears this name (the last one visited). *)
Lemma fold_spec_step_values (params : RandomWalkParameters) (g : Graph)
    (pairs : list (nat * nat)) (st0 : Graph * gset string) :
  let st := fold_left (spec_step params g) pairs st0 in
  ∀ s c, In (s, c) pairs →
    ∃ t s', g_probabilities st.1 !! c = Some t
            ∧ In (s', c) pairs ∧ vname g s' = vname g s
            ∧ t !! vname g s = Some (spec_transition params g s' c).
Proof.
  induction pairs as [|pr pairs IH] using rev_ind; simpl; [intros s c []|].
  rewrite fold_left_app. simpl.
  set (st := fold_left (spec_step params g) pairs st0) in *.
  destruct pr as [s0 c0]. intros s c Hin.
  rewrite spec_step_probabilities. simpl.
  apply in_app_or in Hin as [Hin|[Heq|[]]].
  - destruct (IH s c Hin) as (t & s' & Ht & Hin' & Hname & Hts).
    destruct (decide (c0 = c)) as [->|Hne].
    + rewrite lookup_insert_eq, Ht. simpl.
      destruct (decide (vname g s0 = vname g s)) as [Hsame|Hdiff].
      * eexists. exists s0. split; [reflexivity|].
        split; [apply in_or_app; right; left; reflexivity|]. split; [exact Hsame|].
        rewrite <- Hsame. apply lookup_insert_eq.
      * eexists. exists s'. split; [reflexivity|].
        split; [apply in_or_app; left; exact Hin'|]. split; [exact Hname|].
        rewrite lookup_insert_ne by exact Hdiff. exact Hts.
    + rewrite lookup_insert_ne by exact Hne. exists t, s'.
      split; [exact Ht|]. split; [apply in_or_app; left; exact Hin'|]. auto.
  - injection Heq as <- <-. rewrite lookup_insert_eq. eexists. exists s0.
    split; [reflexivity|]. split; [apply in_or_app; right; left; reflexivity|].
    split; [reflexivity|]. apply lookup_insert_eq.
Qed.

(** The second-order tables that [_precompute_probs] leaves on the graph,
    whatever the names of the vertices. *)
Lemma precompute_probs_transitions (params : RandomWalkParameters) (g : Graph) :
  nonzero_bias params g = true →
  ∃ g', Node2VecModel._precompute_probs params g = inr g'
    ∧ ∀ u v, u < vcount g → In v (neighbors g u) →
        ∃ t u', g_probabilities g' !! v = Some t
                ∧ u' < vcount g ∧ In v (neighbors g u') ∧ vname g u' = vname g u
                ∧ t !! vname g u = Some (spec_transition params g u' v).
Proof.
  intros Hnz. eexists. split; [apply precompute_probs_spec, Hnz|].
  intros u v Hu Hv.
  destruct (fold_spec_step_values params g (visited_pairs g)
              (Node2VecModel.reset_probabilities g, ∅) u v) as (t & u' & Ht & Hin & Hname & Hts).
  { apply In_visited_pairs. auto. }
  apply In_visited_pairs in Hin as [Hu' Hv'].
  exists t, u'. auto.
Qed.

(** The tables that [_precompute_probs] leaves on the graph. *)
Lemma precompute_probs_tables (params : RandomWalkParameters) (g : Graph) :
  nonzero_bias params g = true → unique_names g = true →
  ∃ g', Node2VecModel._precompute_probs params g = inr g'
    ∧ same_shape g g'
    ∧ (∀ u v, u < vcount g → In v (neighbors g u) →
         ∃ t, g_probabilities g' !! v = Some t
              ∧ t !! vname g u = Some (spec_transition params g u v))
    ∧ (∀ v, v < vcount g → neighbors g v ≠ [] →
         g_first_travel_key g' !! v = Some (spec_first_travel g v)).
Proof.
  intros Hnz Hu. eexists. split; [apply precompute_probs_spec, Hnz|].
  pose proof (fold_spec_step_tables params g (visited_pairs g)
                (Node2VecModel.reset_probabilities g, ∅) Hu) as H.
  destruct H as (Hready & Hprob & Hfirst).
  { intros s c Hin. apply In_visited_pairs in Hin as [Hs Hc].
    split; [exact Hs|]. eapply neighbors_lt, Hc. }
  { split; [apply reset_ready|]. split.
    - intros s c [].
    - intros c _ Hin. simpl in Hin. exfalso. revert Hin. apply not_elem_of_empty. }
  split; [apply Hready|]. split.
  - intros u v Hu' Hv. apply Hprob, In_visited_pairs. auto.
  - intros v Hv Hne. apply Hfirst; [exact Hv|].
    destruct (neighbors g v) as [|x rest] eqn:E; [congruence|].
    assert (In x (neighbors g v)) as Hx by (rewrite E; left; reflexivity).
    apply (Hprob x v), In_visited_pairs. split.
    + eapply neighbors_lt, Hx.
    + apply neighbors_sym; assumption.
Qed.

(** ** Which exceptions the table builder can raise *)

Lemma foldE_safe {S A : Type} (I : S → Prop) (e0 : Exn) (f : A → S → Exn + S)
    (l : list A) :
  (∀ y s, In y l → I s → match f y s with inr s' => I s' | inl e => e = e0 end) →
  ∀ s, I s → match foldE f l s with inr s' => I s' | inl e => e = e0 end.
Proof.
  induction l as [|y l IH]; intros Hstep s Hs; simpl; [exact Hs|].
  pose proof (Hstep y s (or_introl eq_refl) Hs) as Hy.
  destruct (f y s) as [e|s']; simpl; [exact Hy|].
  apply IH; [|exact Hy]. intros z t Hz. apply Hstep. right. exact Hz.
Qed.

Lemma foldE_fails {S A : Type} (I : S → Prop) (e0 : Exn) (f : A → S → Exn + S)
    (l : list A) (x : A) :
  (∀ y s, In y l → I s → match f y s with inr s' => I s' | inl e => e = e0 end) →
  In x l → (∀ s, I s → f x s = inl e0) →
  ∀ s, I s → foldE f l s = inl e0.
Proof.
  induction l as [|y l IH]; intros Hstep Hx Hfail s Hs; [contradiction|]. simpl.
  pose proof (Hstep y s (or_introl eq_refl) Hs) as Hy.
  destruct (f y s) as [e|s'] eqn:E; simpl; [congruence|].
  destruct Hx as [->|Hx].
  - rewrite Hfail in E by exact Hs. discriminate.
  - apply IH; auto. intros z t Hz. apply Hstep. right. exact Hz.
Qed.

Lemma compute_prob_errors (g : Graph) (u x : nat) (p q w : Q) :
  match Node2VecModel._compute_prob g u x p q w with
  | inl e => e = ZeroDivisionError
  | inr _ => True
  end.
Proof.
  unfold Node2VecModel._compute_prob, py_div.
  destruct (x =? u); [destruct (Qeq_bool p 0); auto|].
  destruct (0 <? _); [auto|]. destruct (Qeq_bool q 0); auto.
Qed.

Lemma weights_loop_errors (params : RandomWalkParameters) (g : Graph) (u v : nat)
    (done : gset string) (targets : list nat) (uw ftw : list Q) :
  (∀ x, In x targets → In x (neighbors g v)) →
  match Node2VecModel.weights_loop params g u v done targets uw ftw with
  | inl e => e = ZeroDivisionError
  | inr _ => True
  end.
Proof.
  revert uw ftw. induction targets as [|x targets IH]; intros uw ftw Hin; simpl; [exact I|].
  destruct (first_edge_between g v x) as (e & He & _).
  { apply Hin. left. reflexivity. }
  rewrite He. simpl.
  pose proof (compute_prob_errors g u x
    (Node2VecModel._get_p params (vname g v)) (Node2VecModel._get_q params (vname g v))
    (e_weight e)) as Hc.
  destruct (Node2VecModel._compute_prob _ _ _ _ _ _) as [err|w]; simpl; [exact Hc|].
  apply IH. intros y Hy. apply Hin. right. exact Hy.
Qed.

(** When the resolved [p] of the current vertex is zero, weighing the step
    back to the source divides by it. *)
Lemma weights_loop_zero_p (params : RandomWalkParameters) (g : Graph) (u v : nat)
    (done : gset string) (targets : list nat) (uw ftw : list Q) :
  Qeq_bool (Node2VecModel._get_p params (vname g v)) 0 = true →
  (∀ x, In x targets → In x (neighbors g v)) → In u targets →
  Node2VecModel.weights_loop params g u v done targets uw ftw = inl ZeroDivisionError.
Proof.
  intros Hp. revert uw ftw.
  induction targets as [|x targets IH]; intros uw ftw Hin Hu; [contradiction|]. simpl.
  destruct (first_edge_between g v x) as (e & He & _).
  { apply Hin. left. reflexivity. }
  rewrite He. simpl.
  pose proof (compute_prob_errors g u x
    (Node2VecModel._get_p params (vname g v)) (Node2VecModel._get_q params (vname g v))
    (e_weight e)) as Hc.
  destruct (Node2VecModel._compute_prob _ _ _ _ _ _) as [err|w] eqn:E; simpl; [congruence|].
  destruct Hu as [->|Hu].
  - unfold Node2VecModel._compute_prob in E. rewrite Nat.eqb_refl in E.
    rewrite py_div_zero in E by exact Hp. discriminate.
  - apply IH; [|exact Hu]. intros y Hy. apply Hin. right. exact Hy.
Qed.

Lemma precompute_step_cases (params : RandomWalkParameters) (g : Graph)
    (source current_node : nat) (st : Graph * gset string) :
  tables_ready g st → In current_node (neighbors g source) →
  match Node2VecModel.precompute_step params source current_node st with
  | inr st' => tables_ready g st'
  | inl e => e = ZeroDivisionError
  end.
Proof.
  intros [Hs Hd] Hin. pose proof (neighbors_lt _ _ _ Hin) as Hlt.
  unfold Node2VecModel.precompute_step, Node2VecModel._compute_unnormalized_weights.
  pose proof (weights_loop_errors params st.1 source current_node st.2
                (neighbors st.1 current_node) [] [] (fun x H => H)) as Hw.
  destruct (Node2VecModel.weights_loop _ _ _ _ _ _ _ _) as [e|ws]; simpl; [exact Hw|].
  unfold Node2VecModel.store_probabilities.
  destruct (Hd _ Hlt) as [d Hdict]. rewrite Hdict. simpl.
  assert (∀ v, v < vcount g →
            is_Some ((<[current_node := <[vname st.1 source := np_normalize ws.1]> d]>
                        (g_probabilities st.1)) !! v)) as Hd'.
  { intros v Hv. destruct (decide (current_node = v)) as [->|Hne].
    - rewrite lookup_insert_eq. eauto.
    - rewrite lookup_insert_ne by exact Hne. auto. }
  destruct (decide _); (split; [exact Hs|exact Hd']).
Qed.

Lemma precompute_step_zero_p (params : RandomWalkParameters) (g : Graph)
    (source current_node : nat) (st : Graph * gset string) :
  tables_ready g st → source < vcount g → In current_node (neighbors g source) →
  Qeq_bool (Node2VecModel._get_p params (vname g current_node)) 0 = true →
  Node2VecModel.precompute_step params source current_node st = inl ZeroDivisionError.
Proof.
  intros [Hs Hd] Hsrc Hin Hp.
  unfold Node2VecModel.precompute_step, Node2VecModel._compute_unnormalized_weights.
  rewrite weights_loop_zero_p; [reflexivity| |auto|].
  - rewrite (vname_shape g st.1) by exact Hs. exact Hp.
  - rewrite (neighbors_shape g st.1) by exact Hs. apply neighbors_sym; assumption.
Qed.

Lemma inner_loop_cases (params : RandomWalkParameters) (g : Graph) (source : nat)
    (st : Graph * gset string) :
  tables_ready g st →
  match foldE (Node2VecModel.precompute_step params source) (neighbors st.1 source) st with
  | inr st' => tables_ready g st'
  | inl e => e = ZeroDivisionError
  end.
Proof.
  intros Hst. rewrite (neighbors_shape g st.1) by apply Hst.
  apply (foldE_safe (tables_ready g)); [|exact Hst].
  intros c s Hc Hs. apply precompute_step_cases; assumption.
Qed.

(** [_precompute_probs] either completes, leaving the shape of the graph
    as it was, or stops on a division by zero. *)
Lemma precompute_probs_cases (params : RandomWalkParameters) (g : Graph) :
  match Node2VecModel._precompute_probs params g with
  | inr g' => same_shape g g' ∧ ∀ v, v < vcount g → is_Some (g_probabilities g' !! v)
  | inl e => e = ZeroDivisionError
  end.
Proof.
  unfold Node2VecModel._precompute_probs.
  pose proof (foldE_safe (tables_ready g) ZeroDivisionError
    (fun source st =>
       foldE (Node2VecModel.precompute_step params source) (neighbors st.1 source) st)
    (vs (Node2VecModel.reset_probabilities g))
    (fun y s _ Hs => inner_loop_cases params g y s Hs)
    _ (reset_ready g)) as H.
  destruct (foldE _ _ _) as [e|st]; simpl; [exact H|exact H].
Qed.

Lemma precompute_probs_zero_p (params : RandomWalkParameters) (g : Graph) (v : nat) :
  v < vcount g → neighbors g v ≠ [] →
  Qeq_bool (Node2VecModel._get_p params (vname g v)) 0 = true →
  Node2VecModel._precompute_probs params g = inl ZeroDivisionError.
Proof.
  intros Hv Hne Hp. unfold Node2VecModel._precompute_probs.
  destruct (neighbors g v) as [|x rest] eqn:E; [congruence|].
  assert (In x (neighbors g v)) as Hx by (rewrite E; left; reflexivity).
  pose proof (neighbors_lt _ _ _ Hx) as Hxlt.
  pose proof (neighbors_sym g v x Hv Hx) as Hvx.
  rewrite (foldE_fails (tables_ready g) ZeroDivisionError _ _ x); [reflexivity| | | |].
  - intros y s _ Hs. apply inner_loop_cases, Hs.
  - rewrite (vs_shape g) by apply reset_probabilities_spec. unfold vs. apply in_seq. lia.
  - intros s Hs. rewrite (neighbors_shape g s.1) by apply Hs.
    apply (foldE_fails (tables_ready g) ZeroDivisionError _ _ v); auto.
    + intros c t Hc Ht. apply (precompute_step_cases params g); assumption.
    + intros t Ht. apply (precompute_step_zero_p params g); assumption.
  - apply reset_ready.
Qed.

(** ** The walkers: length of a walk *)

Lemma emitted_yield (x : Item) (t : Trace) : emitted (yield x t) = x :: emitted t.
Proof. reflexivity. Qed.

Lemma standard_loop_length (src : RandomSource) (g : Graph) (steps tail : nat)
    (st : RandomState) :
  length (emitted (StandardRandomWalker.walk_loop src g steps tail st)) ≤ steps.
Proof.
  revert tail st. induction steps as [|n IH]; intros tail st; simpl; [lia|].
  destruct (0 <? neighborhood_size g tail); simpl; [|lia].
  destruct (random_choice src (neighbors g tail) st) as [e|[tail' st']]; simpl; [lia|].
  specialize (IH tail' st'). lia.
Qed.

Lemma restarting_loop_length (params : RandomWalkParameters) (src : RandomSource)
    (g : Graph) (steps vertex tail : nat) (st : RandomState) :
  length (emitted (RestartingRandomWalker.walk_loop params src g steps vertex tail st))
  ≤ steps.
Proof.
  revert tail st. induction steps as [|n IH]; intros tail st; simpl; [lia|].
  destruct (0 <? neighborhood_size g tail); simpl; [|lia].
  destruct (RestartingRandomWalker.next_tail params src g vertex tail st)
    as [e|[tail' st']]; simpl; [lia|].
  specialize (IH tail' st'). lia.
Qed.

Lemma biased_loop_length (src : RandomSource) (g : Graph) (steps double_tail tail : nat)
    (st : RandomState) :
  length (emitted (BiasedRandomWalker.walk_loop src g steps double_tail tail st)) ≤ steps.
Proof.
  revert double_tail tail st.
  induction steps as [|n IH]; intros double_tail tail st; simpl; [lia|].
  destruct (length (neighbors g tail) =? 0); simpl; [lia|].
  destruct (BiasedRandomWalker.transition g tail (vname g double_tail)) as [e|probs];
    simpl; [lia|].
  destruct (np_random_choice src (neighbors g tail) (Some probs) st) as [e|[tail' st']];
    simpl; [lia|].
  specialize (IH tail tail' st'). lia.
Qed.

Lemma biased_walk_length (params : RandomWalkParameters) (src : RandomSource)
    (g : Graph) (vertex : nat) (st : RandomState) :
  (2 ≤ max_path_length params)%Z → BiasedRandomWalker._check params vertex = false →
  let t := BiasedRandomWalker.get_igraph_walk params src g vertex st in
  1 ≤ length (emitted t)
  ∧ length (emitted t) ≤ 2 + Z.to_nat (BiasedRandomWalker.walk_length params vertex - 2).
Proof.
  intros Hlen Hcheck. unfold BiasedRandomWalker.get_igraph_walk.
  destruct (Z.ltb_spec (max_path_length params) 2) as [?|_]; [lia|].
  rewrite Hcheck. simpl.
  destruct (BiasedRandomWalker.first_travel g vertex) as [e|probs]; simpl; [lia|].
  destruct (np_random_choice src (neighbors g vertex) probs st) as [e|[tail st']];
    simpl; [lia|].
  pose proof (biased_loop_length src g
    (Z.to_nat (BiasedRandomWalker.walk_length params vertex - 2)) vertex tail st').
  lia.
Qed.

Lemma biased_walk_skipped (params : RandomWalkParameters) (src : RandomSource)
    (g : Graph) (vertex : nat) (st : RandomState) :
  (2 ≤ max_path_length params)%Z → BiasedRandomWalker._check params vertex = true →
  BiasedRandomWalker.get_igraph_walk params src g vertex st = stop st.
Proof.
  intros Hlen Hcheck. unfold BiasedRandomWalker.get_igraph_walk.
  destruct (Z.ltb_spec (max_path_length params) 2) as [?|_]; [lia|].
  rewrite Hcheck. reflexivity.
Qed.

(** ** The walkers: a vertex without neighbors *)

Lemma neighborhood_size_positive (g : Graph) (v : nat) :
  (0 <? neighborhood_size g v) = true.
Proof.
  apply Nat.ltb_lt. unfold neighborhood_size.
  assert (v ∈ remove_dups (v :: neighbors g v)) as Hin.
  { apply elem_of_remove_dups. left. }
  destruct (remove_dups (v :: neighbors g v)); simpl; [|lia].
  exfalso. revert Hin. apply not_elem_of_nil.
Qed.

Lemma random_choice_empty {A : Type} (src : RandomSource) (st : RandomState) :
  random_choice src (@nil A) st = inl IndexError.
Proof. reflexivity. Qed.

Lemma np_random_choice_empty {A : Type} (src : RandomSource) (p : option (list NpFloat))
    (st : RandomState) :
  np_random_choice src (@nil A) p st = inl ValueError.
Proof. reflexivity. Qed.

(** ** The walkers: dependence on the random source *)

Section same_source.
Context (src1 src2 : RandomSource) (Hsame : same_draws src1 src2).

Lemma random_random_same (st : RandomState) :
  random_random src1 st = random_random src2 st.
Proof. unfold random_random. rewrite (proj1 (Hsame _)). reflexivity. Qed.

Lemma random_choice_same {A : Type} (l : list A) (st : RandomState) :
  random_choice src1 l st = random_choice src2 l st.
Proof. unfold random_choice. rewrite (proj1 (Hsame _)). reflexivity. Qed.

Lemma np_random_choice_same {A : Type} (a : list A) (p : option (list NpFloat))
    (st : RandomState) :
  np_random_choice src1 a p st = np_random_choice src2 a p st.
Proof. unfold np_random_choice. rewrite (proj2 (Hsame _)). reflexivity. Qed.

Lemma standard_loop_same (g : Graph) (steps tail : nat) (st : RandomState) :
  StandardRandomWalker.walk_loop src1 g steps tail st
  = StandardRandomWalker.walk_loop src2 g steps tail st.
Proof.
  revert tail st. induction steps as [|n IH]; intros tail st; simpl; [reflexivity|].
  rewrite random_choice_same.
  destruct (0 <? neighborhood_size g tail); [|reflexivity].
  destruct (random_choice src2 (neighbors g tail) st) as [e|[tail' st']]; [reflexivity|].
  rewrite IH. reflexivity.
Qed.

Lemma next_tail_same (params : RandomWalkParameters) (g : Graph) (vertex tail : nat)
    (st : RandomState) :
  RestartingRandomWalker.next_tail params src1 g vertex tail st
  = RestartingRandomWalker.next_tail params src2 g vertex tail st.
Proof.
  unfold RestartingRandomWalker.next_tail. rewrite random_random_same.
  destruct (random_random src2 st) as [r st1].
  rewrite random_choice_same. reflexivity.
Qed.

Lemma restarting_loop_same (params : RandomWalkParameters) (g : Graph)
    (steps vertex tail : nat) (st : RandomState) :
  RestartingRandomWalker.walk_loop params src1 g steps vertex tail st
  = RestartingRandomWalker.walk_loop params src2 g steps vertex tail st.
Proof.
  revert tail st. induction steps as [|n IH]; intros tail st; simpl; [reflexivity|].
  rewrite next_tail_same.
  destruct (0 <? neighborhood_size g tail); [|reflexivity].
  destruct (RestartingRandomWalker.next_tail params src2 g vertex tail st)
    as [e|[tail' st']]; [reflexivity|].
  rewrite IH. reflexivity.
Qed.

Lemma biased_loop_same (g : Graph) (steps double_tail tail : nat) (st : RandomState) :
  BiasedRandomWalker.walk_loop src1 g steps double_tail tail st
  = BiasedRandomWalker.walk_loop src2 g steps double_tail tail st.
Proof.
  revert double_tail tail st.
  induction steps as [|n IH]; intros double_tail tail st; simpl; [reflexivity|].
  destruct (length (neighbors g tail) =? 0); [reflexivity|].
  destruct (BiasedRandomWalker.transition g tail (vname g double_tail)) as [e|probs];
    [reflexivity|].
  rewrite np_random_choice_same.
  destruct (np_random_choice src2 (neighbors g tail) (Some probs) st) as [e|[tail' st']];
    [reflexivity|].
  rewrite IH. reflexivity.
Qed.

Lemma get_walk_same (kind : Sampler) (params : RandomWalkParameters) (g : Graph)
    (vertex : nat) (st : RandomState) :
  Walker.get_walk kind params src1 g vertex st = Walker.get_walk kind params src2 g vertex st.
Proof.
  destruct kind; simpl.
  - unfold StandardRandomWalker.get_igraph_walk. rewrite standard_loop_same. reflexivity.
  - unfold RestartingRandomWalker.get_igraph_walk. rewrite restarting_loop_same.
    reflexivity.
  - unfold BiasedRandomWalker.get_igraph_walk.
    destruct (max_path_length params <? 2)%Z; [reflexivity|].
    destruct (BiasedRandomWalker._check params vertex); [reflexivity|].
    destruct (BiasedRandomWalker.first_travel g vertex) as [e|probs]; [reflexivity|].
    rewrite np_random_choice_same.
    destruct (np_random_choice src2 (neighbors g vertex) probs st) as [e|[tail st']];
      [reflexivity|].
    rewrite biased_loop_same. reflexivity.
Qed.

End same_source.

Lemma walks_from_ext (f h : Graph → nat → RandomState → Trace) (g : Graph)
    (vertices : list nat) (st : RandomState) :
  (∀ g v st, f g v st = h g v st) →
  AbstractRandomWalker.walks_from f g vertices st
  = AbstractRandomWalker.walks_from h g vertices st.
Proof.
  intros Hext. revert st. induction vertices as [|v vertices IH]; intros st; simpl;
    [reflexivity|].
  rewrite Hext, IH. reflexivity.
Qed.

Lemma repeat_walks_ext (f h : Graph → nat → RandomState → Trace) (g : Graph)
    (repetitions : nat) (st : RandomState) :
  (∀ g v st, f g v st = h g v st) →
  AbstractRandomWalker.repeat_walks f g repetitions st
  = AbstractRandomWalker.repeat_walks h g repetitions st.
Proof.
  intros Hext. revert st. induction repetitions as [|n IH]; intros st; simpl;
    [reflexivity|].
  rewrite (walks_from_ext f h) by exact Hext. rewrite IH. reflexivity.
Qed.

(** ** The orchestrator: how many walks it yields *)

Lemma walks_from_length (f : Graph → nat → RandomState → Trace) (g : Graph)
    (vertices : list nat) (st : RandomState) :
  length (AbstractRandomWalker.walks_from f g vertices st).1 = length vertices.
Proof.
  revert st. induction vertices as [|v vertices IH]; intros st; simpl; [reflexivity|].
  rewrite IH. reflexivity.
Qed.

Lemma repeat_walks_length (f : Graph → nat → RandomState → Trace) (g : Graph)
    (repetitions : nat) (st : RandomState) :
  length (AbstractRandomWalker.repeat_walks f g repetitions st) = repetitions * vcount g.
Proof.
  revert st. induction repetitions as [|n IH]; intros st; simpl; [reflexivity|].
  rewrite length_app, walks_from_length, IH. unfold vs. rewrite length_seq. reflexivity.
Qed.

(** ** Positive weights *)

Lemma positive_bias_at (params : RandomWalkParameters) (g : Graph) (v : nat) :
  positive_bias params g = true → v < vcount g →
  (0 < Node2VecModel._get_p params (vname g v))%Q
  ∧ (0 < Node2VecModel._get_q params (vname g v))%Q.
Proof.
  intros H Hv. unfold positive_bias in H. rewrite forallb_forall in H.
  specialize (H v). rewrite andb_true_iff, !Qlt_bool_iff in H. apply H.
  unfold vs. apply in_seq. lia.
Qed.

Lemma positive_bias_nonzero (params : RandomWalkParameters) (g : Graph) :
  positive_bias params g = true → nonzero_bias params g = true.
Proof.
  intros H. unfold nonzero_bias. apply forallb_forall. intros v Hv.
  unfold vs in Hv. apply in_seq in Hv.
  destruct (positive_bias_at params g v H) as [Hp Hq]; [lia|].
  rewrite andb_true_iff, !negb_true_iff, !Qeq_bool_false. split; lra.
Qed.

Lemma spec_edge_weight_positive (g : Graph) (v x : nat) :
  positive_weights g = true → In x (neighbors g v) → (0 < spec_edge_weight g v x)%Q.
Proof.
  intros Hpos Hx. destruct (first_edge_between g v x Hx) as (e & _ & <- & Hin).
  unfold positive_weights in Hpos. rewrite forallb_forall in Hpos.
  apply Qlt_bool_iff, Hpos, Hin.
Qed.

Lemma Qdiv_positive (a b : Q) : (0 < a)%Q → (0 < b)%Q → (0 < a / b)%Q.
Proof. intros Ha Hb. apply Qlt_shift_div_l; [exact Hb|]. rewrite Qmult_0_l. exact Ha. Qed.

Lemma spec_transition_weight_positive (params : RandomWalkParameters) (g : Graph)
    (u v x : nat) :
  positive_weights g = true → positive_bias params g = true →
  In x (neighbors g v) → v < vcount g →
  (0 < spec_transition_weight params g u v x)%Q.
Proof.
  intros Hw Hb Hx Hv. destruct (positive_bias_at params g v Hb Hv) as [Hp Hq].
  pose proof (spec_edge_weight_positive g v x Hw Hx) as He.
  unfold spec_transition_weight.
  destruct (bool_decide (x = u)); [apply Qdiv_positive; assumption|].
  destruct (spec_has_edge g u x); [exact He|apply Qdiv_positive; assumption].
Qed.

Lemma Qsum_map_positive {A : Type} (f : A → Q) (l : list A) :
  l ≠ [] → (∀ x, In x l → (0 < f x)%Q) → ¬ (Qsum (map f l) == 0)%Q.
Proof.
  intros Hne Hpos.
  assert (0 < Qsum (map f l))%Q; [|lra].
  apply Qsum_positive.
  - destruct l; [congruence|discriminate].
  - apply Forall_forall. intros y Hy. apply list_elem_of_In, in_map_iff in Hy
      as (x & <- & Hx). apply Hpos, Hx.
Qed.

Lemma spec_transition_sums_to_one (params : RandomWalkParameters) (g : Graph) (u v : nat) :
  positive_weights g = true → positive_bias params g = true →
  v < vcount g → neighbors g v ≠ [] →
  length (spec_transition params g u v) = length (neighbors g v)
  ∧ sums_to_one (spec_transition params g u v) = true.
Proof.
  intros Hw Hb Hv Hne. unfold spec_transition. split.
  - rewrite np_normalize_length, length_map. reflexivity.
  - apply np_normalize_sums_to_one, Qsum_map_positive; [exact Hne|].
    intros x Hx. apply spec_transition_weight_positive; assumption.
Qed.

Lemma spec_first_travel_sums_to_one (g : Graph) (v : nat) :
  positive_weights g = true → neighbors g v ≠ [] →
  length (spec_first_travel g v) = length (neighbors g v)
  ∧ sums_to_one (spec_first_travel g v) = true.
Proof.
  intros Hw Hne. unfold spec_first_travel. split.
  - rewrite np_normalize_length, length_map. reflexivity.
  - apply np_normalize_sums_to_one, Qsum_map_positive; [exact Hne|].
    intros x Hx. apply spec_edge_weight_positive; assumption.
Qed.

(** * The claims *)

(** C1, counterexample: in the directed cycle A -> B -> C -> A, with
    [p = 1/2] and [q = 2], take the current vertex B and the previous vertex
    A.  C is a neighbor of B, differs from A, and an edge joins A and C (the
    edge C -> A); but no edge has source A and target C, so the weight of C
    is [1 / q = 1/2], not 1, and the distribution stored for (B, A) is
    (4/5, 1/5). *)
Lemma edge_test_is_directed :
  select_source_target cycle 0 1 ≠ []
  ∧ neighbors cycle 1 = [0; 2]
  ∧ select_between cycle 0 2 ≠ []
  ∧ spec_edge_weight cycle 1 2 = 1%Q
  ∧ Node2VecModel._compute_unnormalized_weights bias_params cycle 0 1 ∅
    = inr ([2%Q; (1 # 2)%Q], [1%Q; 1%Q])
  ∧ is_distribution (stored_transition (Node2VecModel.__init__ bias_params cycle) 1 "A")
      [4 # 5; 1 # 5]%Q = true.
Proof.
  split; [discriminate|]. split; [reflexivity|]. split; [discriminate|].
  split; [reflexivity|]. split; vm_compute; reflexivity.
Qed.

(** C1 (amended): for a current vertex [v], a previous vertex [u] and a
    neighbor [x] of [v], the unnormalized second-order weight computed when
    the tables are built is [edgeWeight(v,x) / p(v)] when [x = u]; it is
    [edgeWeight(v,x)] when [x <> u] and the graph has an edge from [u] to
    [x] (the lookup [es.select(_source=u, _target=x)] is not empty), this
    triangle case being tried before the [q] case; and it is
    [edgeWeight(v,x) / q(v)] otherwise.  [_compute_unnormalized_weights]
    returns exactly these weights, in the order of [v]'s neighbors, and
    [_precompute_probs] stores them normalised under [(v, name of u)].  In
    the triangle A-B-C with edges of weight 1, [p = 1/2] and [q = 2], the
    distribution stored for (B, previous = A) over B's neighbors (A, C) is
    (2/3, 1/3). *)
Theorem second_order_weight_cases :
  (∀ params g u v x,
     (x = u →
      spec_transition_weight params g u v x
      = (spec_edge_weight g v x / Node2VecModel._get_p params (vname g v))%Q)
     ∧ (x ≠ u → select_source_target g u x ≠ [] →
        spec_transition_weight params g u v x = spec_edge_weight g v x)
     ∧ (x ≠ u → select_source_target g u x = [] →
        spec_transition_weight params g u v x
        = (spec_edge_weight g v x / Node2VecModel._get_q params (vname g v))%Q))
  ∧ (∀ params g u v done,
       Qeq_bool (Node2VecModel._get_p params (vname g v)) 0 = false →
       Qeq_bool (Node2VecModel._get_q params (vname g v)) 0 = false →
       ∃ first_travel_weights,
         Node2VecModel._compute_unnormalized_weights params g u v done
         = inr (map (spec_transition_weight params g u v) (neighbors g v),
                first_travel_weights))
  ∧ (∀ params g u v,
       nonzero_bias params g = true → unique_names g = true →
       u < vcount g → In v (neighbors g u) →
       stored_transition (Node2VecModel._precompute_probs params g) v (vname g u)
       = Some (np_normalize (map (spec_transition_weight params g u v) (neighbors g v))))
  ∧ neighbors triangle 1 = [0; 2]
  ∧ is_distribution (stored_transition (Node2VecModel.__init__ bias_params triangle) 1 "A")
      [2 # 3; 1 # 3]%Q = true.
Proof.
  split; [|split; [|split; [|split]]].
  - intros params g u v x. unfold spec_transition_weight, spec_has_edge.
    repeat split.
    + intros ->. rewrite bool_decide_eq_true_2 by reflexivity. reflexivity.
    + intros Hne Hedge. rewrite bool_decide_eq_false_2 by exact Hne.
      rewrite bool_decide_eq_true_2 by exact Hedge. reflexivity.
    + intros Hne Hedge. rewrite bool_decide_eq_false_2 by exact Hne.
      rewrite bool_decide_eq_false_2 by (intros H; apply H, Hedge). reflexivity.
  - intros params g u v done Hp Hq. eexists.
    apply compute_unnormalized_weights_spec; assumption.
  - intros params g u v Hnz Hu Hlt Hin.
    destruct (precompute_probs_tables params g Hnz Hu) as (g' & -> & _ & Hprob & _).
    destruct (Hprob u v Hlt Hin) as (t & Ht & Hd). simpl. rewrite Ht. simpl. exact Hd.
  - reflexivity.
  - vm_compute. reflexivity.
Qed.

Lemma second_order_weight_cases_witness :
  nonzero_bias bias_params triangle = true
  ∧ unique_names triangle = true
  ∧ 0 < vcount triangle
  ∧ In 1 (neighbors triangle 0)
  ∧ stored_transition (Node2VecModel._precompute_probs bias_params triangle) 1
      (vname triangle 0)
    = Some (np_normalize
              (map (spec_transition_weight bias_params triangle 0 1) (neighbors triangle 1))).
Proof.
  assert (nonzero_bias bias_params triangle = true) as H1 by (vm_compute; reflexivity).
  assert (unique_names triangle = true) as H2 by (vm_compute; reflexivity).
  assert (0 < vcount triangle) as H3 by (vm_compute; lia).
  assert (In 1 (neighbors triangle 0)) as H4 by (vm_compute; tauto).
  split; [exact H1|]. split; [exact H2|]. split; [exact H3|]. split; [exact H4|].
  exact (proj1 (proj2 (proj2 second_order_weight_cases)) bias_params triangle 0 1 H1 H2 H3 H4).
Defined.

(** C6, counterexample: two vertices that are both named A, joined by one
    edge of weight 1, with [p = q = 1].  The weights and the bias parameters
    are positive and vertex 0 has a neighbor, the precomputation completes,
    but vertex 0 gets no first-travel distribution: the set
    [first_travel_done] holds names, vertex 1 is visited first and marks the
    name A as done. *)
Lemma shared_name_has_no_first_travel :
  positive_weights twins = true
  ∧ positive_bias short_params twins = true
  ∧ 0 < vcount twins
  ∧ neighbors twins 0 = [1]
  ∧ ∃ g', Node2VecModel._precompute_probs short_params twins = inr g'
      ∧ g_first_travel_key g' !! 0 = None
      ∧ is_distribution (g_first_travel_key g' !! 1) [1%Q] = true.
Proof.
  split; [vm_compute; reflexivity|]. split; [vm_compute; reflexivity|].
  split; [vm_compute; lia|]. split; [vm_compute; reflexivity|].
  eexists. split; [vm_compute; reflexivity|]. split; vm_compute; reflexivity.
Qed.

(** C6 (amended): when every edge weight and every resolved [p] and [q] is
    positive, the precomputation completes, and on the resulting graph the
    second-order distribution stored for [(v, u)], for every vertex [u] and
    every neighbor [v] of [u], has one entry per neighbor of [v], no nan/inf
    entry, and entries adding up to exactly 1; when moreover the vertex
    names are distinct, the same holds of the first-travel distribution of
    every vertex that has a neighbor. *)
Theorem precomputed_distributions_sum_to_one (params : RandomWalkParameters) (g : Graph) :
  positive_weights g = true → positive_bias params g = true →
  ∃ g', Node2VecModel._precompute_probs params g = inr g'
    ∧ (∀ u v, u < vcount g → In v (neighbors g u) →
         ∃ t d, g_probabilities g' !! v = Some t ∧ t !! vname g u = Some d
                ∧ length d = length (neighbors g v) ∧ sums_to_one d = true)
    ∧ (unique_names g = true →
       ∀ v, v < vcount g → neighbors g v ≠ [] →
         ∃ d, g_first_travel_key g' !! v = Some d
              ∧ length d = length (neighbors g v) ∧ sums_to_one d = true).
Proof.
  intros Hw Hb. pose proof (positive_bias_nonzero params g Hb) as Hnz.
  destruct (precompute_probs_transitions params g Hnz) as (g' & Hrun & Hprob).
  exists g'. split; [exact Hrun|]. split.
  - intros u v Hlt Hin.
    destruct (Hprob u v Hlt Hin) as (t & u' & Ht & Hlt' & Hin' & _ & Hd).
    exists t, (spec_transition params g u' v). split; [exact Ht|]. split; [exact Hd|].
    apply spec_transition_sums_to_one; try assumption.
    + eapply neighbors_lt, Hin.
    + intros Hnil. apply (neighbors_sym g u v Hlt) in Hin. rewrite Hnil in Hin.
      contradiction.
  - intros Hu v Hv Hne.
    destruct (precompute_probs_tables params g Hnz Hu) as (g0 & Hrun0 & _ & _ & Hfirst).
    rewrite Hrun in Hrun0. injection Hrun0 as <-.
    exists (spec_first_travel g v). split; [auto|].
    apply spec_first_travel_sums_to_one; assumption.
Qed.

Lemma precomputed_distributions_sum_to_one_witness :
  positive_weights triangle = true
  ∧ positive_bias bias_params triangle = true
  ∧ unique_names triangle = true
  ∧ ∃ g', Node2VecModel._precompute_probs bias_params triangle = inr g'
      ∧ (∀ u v, u < vcount triangle → In v (neighbors triangle u) →
           ∃ t d, g_probabilities g' !! v = Some t ∧ t !! vname triangle u = Some d
                  ∧ length d = length (neighbors triangle v) ∧ sums_to_one d = true)
      ∧ (unique_names triangle = true →
         ∀ v, v < vcount triangle → neighbors triangle v ≠ [] →
           ∃ d, g_first_travel_key g' !! v = Some d
                ∧ length d = length (neighbors triangle v) ∧ sums_to_one d = true).
Proof.
  assert (positive_weights triangle = true) as H1 by (vm_compute; reflexivity).
  assert (positive_bias bias_params triangle = true) as H2 by (vm_compute; reflexivity).
  split; [exact H1|]. split; [exact H2|]. split; [vm_compute; reflexivity|].
  exact (precomputed_distributions_sum_to_one bias_params triangle H1 H2).
Defined.

(** C4, counterexample: with the global [p = -1] on the path A - B the
    resolved [p] of vertex A is not positive, and the precomputation
    completes without raising. *)
Lemma negative_p_is_accepted :
  (Node2VecModel._get_p negative_p_params (vname path_and_isolated 0) <= 0)%Q
  ∧ ∃ g', Node2VecModel._precompute_probs negative_p_params path_and_isolated = inr g'.
Proof.
  split.
  - vm_compute. discriminate.
  - eexists. vm_compute. reflexivity.
Qed.

(** C4 (amended): the precomputation does not check the sign of [p] or
    [q].  It completes whenever the resolved [p] and [q] of every vertex
    differ from zero, negative values included; it raises only
    [ZeroDivisionError], and does so, while the tables are being built,
    whenever the resolved [p] of a vertex that has a neighbor is zero. *)
Theorem precompute_fails_only_on_zero_division :
  (∀ params g, nonzero_bias params g = true →
     ∃ g', Node2VecModel._precompute_probs params g = inr g')
  ∧ (∀ params g e, Node2VecModel._precompute_probs params g = inl e →
       e = ZeroDivisionError)
  ∧ (∀ params g v, v < vcount g → neighbors g v ≠ [] →
       Qeq_bool (Node2VecModel._get_p params (vname g v)) 0 = true →
       Node2VecModel._precompute_probs params g = inl ZeroDivisionError).
Proof.
  split; [|split].
  - intros params g Hnz. eexists. apply precompute_probs_spec, Hnz.
  - intros params g e He. pose proof (precompute_probs_cases params g) as H.
    rewrite He in H. exact H.
  - intros params g v. apply precompute_probs_zero_p.
Qed.

Lemma precompute_fails_only_on_zero_division_witness :
  (nonzero_bias negative_p_params path_and_isolated = true
   ∧ ∃ g', Node2VecModel._precompute_probs negative_p_params path_and_isolated = inr g')
  ∧ (0 < vcount path_and_isolated
     ∧ neighbors path_and_isolated 0 ≠ []
     ∧ Qeq_bool (Node2VecModel._get_p zero_p_params (vname path_and_isolated 0)) 0 = true
     ∧ Node2VecModel._precompute_probs zero_p_params path_and_isolated
       = inl ZeroDivisionError).
Proof.
  assert (nonzero_bias negative_p_params path_and_isolated = true) as H1
    by (vm_compute; reflexivity).
  assert (0 < vcount path_and_isolated) as H2 by (vm_compute; lia).
  assert (neighbors path_and_isolated 0 ≠ []) as H3 by (vm_compute; discriminate).
  assert (Qeq_bool (Node2VecModel._get_p zero_p_params (vname path_and_isolated 0)) 0 = true)
    as H4 by (vm_compute; reflexivity).
  split.
  - split; [exact H1|].
    exact (proj1 precompute_fails_only_on_zero_division negative_p_params
             path_and_isolated H1).
  - split; [exact H2|]. split; [exact H3|]. split; [exact H4|].
    exact (proj2 (proj2 precompute_fails_only_on_zero_division) zero_p_params
             path_and_isolated 0 H2 H3 H4).
Defined.

(** ** The constructor *)

Lemma filter_joins_set_weights (a b : nat) (w : Q) (es : list Edge) :
  length (List.filter (joins a b)
            (map (fun e => {| e_source := e_source e; e_target := e_target e;
                              e_weight := w |}) es))
  = length (List.filter (joins a b) es).
Proof.
  induction es as [|e es IH]; simpl; [reflexivity|].
  change (joins a b {| e_source := e_source e; e_target := e_target e; e_weight := w |})
    with (joins a b e).
  destruct (joins a b e); simpl; rewrite IH; reflexivity.
Qed.

Lemma neighbors_reset_weights (params : RandomWalkParameters) (g : Graph) (v : nat) :
  neighbors (Node2VecModel.reset_weights params g) v = neighbors g v.
Proof.
  unfold Node2VecModel.reset_weights. destruct (is_weighted params); [reflexivity|].
  unfold neighbors, count_between, set_weights. simpl.
  apply flat_map_ext. intros w. rewrite !filter_joins_set_weights. reflexivity.
Qed.






(** C7: the second-order walker raises [ValueError] (the invalid-parameter
    error of the code), before yielding anything, whenever
    [max_path_length < 2]; the uniform walker with [max_path_length = 1]
    ends normally after yielding the start vertex alone. *)
Theorem biased_walker_rejects_short_paths :
  (∀ params src g vertex st, (max_path_length params < 2)%Z →
     let t := BiasedRandomWalker.get_igraph_walk params src g vertex st in
     emitted t = [] ∧ raised t = Some ValueError)
  ∧ (∀ params src g vertex st, max_path_length params = 1%Z →
       let t := StandardRandomWalker.get_igraph_walk params src g vertex st in
       emitted t = [Label (vlabel g vertex)] ∧ raised t = None
       ∧ length (emitted t) = 1).
Proof.
  split.
  - intros params src g vertex st Hlen. unfold BiasedRandomWalker.get_igraph_walk.
    destruct (Z.ltb_spec (max_path_length params) 2) as [_|?]; [|lia].
    split; reflexivity.
  - intros params src g vertex st Hlen. unfold StandardRandomWalker.get_igraph_walk.
    rewrite Hlen. repeat split.
Qed.

Lemma biased_walker_rejects_short_paths_witness :
  (max_path_length unit_params < 2)%Z
  ∧ emitted (BiasedRandomWalker.get_igraph_walk unit_params half_source triangle 0
               start_state) = []
  ∧ raised (BiasedRandomWalker.get_igraph_walk unit_params half_source triangle 0
              start_state) = Some ValueError
  ∧ max_path_length unit_params = 1%Z
  ∧ length (emitted (StandardRandomWalker.get_igraph_walk unit_params half_source triangle 0
                       start_state)) = 1.
Proof.
  assert (max_path_length unit_params < 2)%Z as H1 by (vm_compute; reflexivity).
  assert (max_path_length unit_params = 1%Z) as H2 by reflexivity.
  split; [exact H1|].
  split; [exact (proj1 (proj1 biased_walker_rejects_short_paths unit_params half_source
                          triangle 0 start_state H1))|].
  split; [exact (proj2 (proj1 biased_walker_rejects_short_paths unit_params half_source
                          triangle 0 start_state H1))|].
  split; [exact H2|].
  exact (proj2 (proj2 (proj2 biased_walker_rejects_short_paths unit_params half_source
                         triangle 0 start_state H2))).
Defined.

(** C3 (what the code does): from a start vertex without neighbors, with
    [max_path_length >= 2], no walker ends normally with a walk of length
    1.  The uniform walker yields the start vertex and raises [IndexError],
    because [neighborhood_size] counts the vertex itself and
    [random.choice] is then given an empty list; the restarting walker
    raises in the same way unless it restarts, in which case the walk gets
    longer than 1; the second-order walker yields the start vertex and
    raises, on the missing ['first_travel_key'] attribute or in
    [numpy.random.choice] over the empty neighbor list. *)
Theorem isolated_vertex_raises (params : RandomWalkParameters) (src : RandomSource)
    (g : Graph) (vertex : nat) (st : RandomState) :
  neighbors g vertex = [] → (2 ≤ max_path_length params)%Z →
  (let t := StandardRandomWalker.get_igraph_walk params src g vertex st in
   emitted t = [Label (vlabel g vertex)] ∧ raised t = Some IndexError)
  ∧ (let t := RestartingRandomWalker.get_igraph_walk params src g vertex st in
     raised t = Some IndexError ∨ 2 ≤ length (emitted t))
  ∧ (BiasedRandomWalker._check params vertex = false →
     let t := BiasedRandomWalker.get_igraph_walk params src g vertex st in
     emitted t = [Vertex vertex] ∧ (raised t = Some KeyError ∨ raised t = Some ValueError)).
Proof.
  intros Hnil Hlen.
  assert (∃ n, Z.to_nat (max_path_length params - 1) = S n) as [n Hn].
  { exists (Z.to_nat (max_path_length params - 2)). lia. }
  split; [|split].
  - unfold StandardRandomWalker.get_igraph_walk. rewrite Hn. simpl.
    rewrite neighborhood_size_positive, Hnil. split; reflexivity.
  - unfold RestartingRandomWalker.get_igraph_walk. rewrite Hn. simpl.
    rewrite neighborhood_size_positive. unfold RestartingRandomWalker.next_tail.
    simpl. destruct (Qle_bool _ _); simpl.
    + right. lia.
    + rewrite Hnil. left. reflexivity.
  - intros Hcheck. unfold BiasedRandomWalker.get_igraph_walk.
    destruct (Z.ltb_spec (max_path_length params) 2) as [?|_]; [lia|].
    rewrite Hcheck, Hnil.
    destruct (BiasedRandomWalker.first_travel g vertex) as [e|probs] eqn:E; simpl.
    + unfold BiasedRandomWalker.first_travel in E.
      destruct (decide _); [|discriminate]. injection E as <-. auto.
    + auto.
Qed.

Lemma isolated_vertex_raises_witness :
  neighbors path_and_isolated 2 = []
  ∧ (2 ≤ max_path_length short_params)%Z
  ∧ raised (StandardRandomWalker.get_igraph_walk short_params half_source
              path_and_isolated 2 start_state) = Some IndexError.
Proof.
  assert (neighbors path_and_isolated 2 = []) as H1 by reflexivity.
  assert (2 ≤ max_path_length short_params)%Z as H2 by (vm_compute; discriminate).
  split; [exact H1|]. split; [exact H2|].
  exact (proj2 (proj1 (isolated_vertex_raises short_params half_source path_and_isolated 2
                         start_state H1 H2))).
Defined.

(** ** The restarting walker *)

Lemma restarting_loop_zero (params : RandomWalkParameters) (src : RandomSource)
    (g : Graph) (steps vertex tail : nat) (st : RandomState) :
  (restart_probability params == 0)%Q → (∀ i, (0 <= py_draw src i)%Q) →
  let t := RestartingRandomWalker.walk_loop params src g steps vertex tail st in
  emitted t = repeat (Label (vlabel g vertex)) steps ∧ raised t = None.
Proof.
  intros Hrp Hdraw. revert tail st.
  induction steps as [|n IH]; intros tail st; simpl; [split; reflexivity|].
  rewrite neighborhood_size_positive. unfold RestartingRandomWalker.next_tail. simpl.
  assert (Qle_bool (restart_probability params) (py_draw src (py_pos st)) = true) as ->.
  { apply Qle_bool_iff. rewrite Hrp. apply Hdraw. }
  simpl. destruct (IH vertex (py_advance 1 st)) as [-> ->]. split; reflexivity.
Qed.

(** C2 (what the code does): the restart test is
    [restart_probability <= random.random()], so the walker goes back to
    the start vertex when the draw is at least [restart_probability], that
    is with probability [1 - restart_probability].  With
    [restart_probability = 0] every step after the first yields the start
    vertex again, whatever the neighbors are; with [restart_probability =
    1] no draw below 1 restarts and every step picks a neighbor of the
    tail. *)
Theorem restart_test_is_inverted :
  (∀ params src g vertex tail st,
     (restart_probability params == 0)%Q → (0 <= py_draw src (py_pos st))%Q →
     RestartingRandomWalker.next_tail params src g vertex tail st
     = inr (vertex, py_advance 1 st))
  ∧ (∀ params src g vertex tail st,
       (restart_probability params == 1)%Q → (py_draw src (py_pos st) < 1)%Q →
       RestartingRandomWalker.next_tail params src g vertex tail st
       = random_choice src (neighbors g tail) (py_advance 1 st))
  ∧ (∀ params src g vertex st,
       (restart_probability params == 0)%Q → (∀ i, (0 <= py_draw src i)%Q) →
       emitted (RestartingRandomWalker.get_igraph_walk params src g vertex st)
       = repeat (Label (vlabel g vertex)) (S (Z.to_nat (max_path_length params - 1))))
  ∧ emitted (RestartingRandomWalker.get_igraph_walk short_params half_source
               path_and_isolated 0 start_state)
    = [Label "A"; Label "A"; Label "A"].
Proof.
  split; [|split; [|split]].
  - intros params src g vertex tail st Hrp Hdraw.
    unfold RestartingRandomWalker.next_tail. simpl.
    assert (Qle_bool (restart_probability params) (py_draw src (py_pos st)) = true) as ->.
    { apply Qle_bool_iff. rewrite Hrp. exact Hdraw. }
    reflexivity.
  - intros params src g vertex tail st Hrp Hdraw.
    unfold RestartingRandomWalker.next_tail. simpl.
    destruct (Qle_bool (restart_probability params) (py_draw src (py_pos st))) eqn:E;
      [|reflexivity].
    apply Qle_bool_iff in E. rewrite Hrp in E. lra.
  - intros params src g vertex st Hrp Hdraw.
    unfold RestartingRandomWalker.get_igraph_walk. rewrite emitted_yield.
    destruct (restarting_loop_zero params src g (Z.to_nat (max_path_length params - 1))
                vertex vertex st Hrp Hdraw) as [-> _].
    reflexivity.
  - vm_compute. reflexivity.
Qed.

Lemma restart_test_is_inverted_witness :
  (restart_probability short_params == 0)%Q
  ∧ (0 <= py_draw half_source (py_pos start_state))%Q
  ∧ RestartingRandomWalker.next_tail short_params half_source path_and_isolated 0 1
      start_state
    = inr (0, py_advance 1 start_state).
Proof.
  assert (restart_probability short_params == 0)%Q as H1 by reflexivity.
  assert (0 <= py_draw half_source (py_pos start_state))%Q as H2
    by (vm_compute; discriminate).
  split; [exact H1|]. split; [exact H2|].
  exact (proj1 restart_test_is_inverted short_params half_source path_and_isolated 0 1
           start_state H1 H2).
Defined.

(** ** Skipped vertices *)

Lemma check_spec (params : RandomWalkParameters) (vertex : nat) :
  BiasedRandomWalker._check params vertex = true
  ↔ ∃ s n, sampling_strategy params !! key_of_vertex vertex = Some s
           ∧ s_num_walks s = Some n ∧ (n ≤ number_paths params)%Z.
Proof.
  unfold BiasedRandomWalker._check. split.
  - destruct (sampling_strategy params !! key_of_vertex vertex) as [s|]; [|discriminate].
    destruct (s_num_walks s) as [n|] eqn:E; [|discriminate].
    intros H. exists s, n. repeat split; [exact E|]. apply Z.leb_le, H.
  - intros (s & n & -> & -> & H). apply Z.leb_le, H.
Qed.

Lemma biased_walk_empty (params : RandomWalkParameters) (src : RandomSource)
    (g : Graph) (vertex : nat) (st : RandomState) :
  (2 ≤ max_path_length params)%Z →
  is_empty_walk (BiasedRandomWalker.get_igraph_walk params src g vertex st)
  = BiasedRandomWalker._check params vertex.
Proof.
  intros Hlen. unfold BiasedRandomWalker.get_igraph_walk.
  destruct (Z.ltb_spec (max_path_length params) 2) as [?|_]; [lia|].
  destruct (BiasedRandomWalker._check params vertex); reflexivity.
Qed.

Lemma walks_from_empty (params : RandomWalkParameters) (src : RandomSource) (g : Graph)
    (vertices : list nat) (st : RandomState) :
  (2 ≤ max_path_length params)%Z →
  length (List.filter is_empty_walk
            (AbstractRandomWalker.walks_from
               (Walker.get_walk SecondOrderBiased params src) g vertices st).1)
  = length (List.filter (BiasedRandomWalker._check params) vertices).
Proof.
  intros Hlen. revert st. induction vertices as [|v vertices IH]; intros st; simpl;
    [reflexivity|].
  rewrite biased_walk_empty by exact Hlen.
  destruct (BiasedRandomWalker._check params v); simpl; rewrite IH; reflexivity.
Qed.

Lemma repeat_walks_empty (params : RandomWalkParameters) (src : RandomSource) (g : Graph)
    (repetitions : nat) (st : RandomState) :
  (2 ≤ max_path_length params)%Z →
  length (List.filter is_empty_walk
            (AbstractRandomWalker.repeat_walks
               (Walker.get_walk SecondOrderBiased params src) g repetitions st))
  = repetitions * length (skipped_vertices params g).
Proof.
  intros Hlen. revert st. induction repetitions as [|n IH]; intros st; simpl;
    [reflexivity|].
  rewrite List.filter_app, length_app, walks_from_empty, IH by exact Hlen. reflexivity.
Qed.

(** C5, counterexample: on the graph with the single vertex A, whose
    override asks for [num_walks = 1 <= number_paths = 1], the vertex is
    skipped, yet the orchestrator yields one walk (an empty one), not
    [1 * 1 - 1 = 0]. *)
Lemma skipped_walk_is_still_yielded :
  BiasedRandomWalker._check skip_params 0 = true
  ∧ length (Walker.get_walks SecondOrderBiased skip_params half_source lonely start_state)
    = 1
  ∧ Z.to_nat (number_paths skip_params) * vcount lonely
    - length (skipped_vertices skip_params lonely) = 0.
Proof. repeat split. Qed.

(** C5 (amended): for [max_path_length >= 2] the second-order walker yields
    nothing for a vertex exactly when the vertex's sampling-strategy
    override holds a [num_walks] value [<=] the global [number_paths] (so a
    vertex is skipped in every repetition or in none).  The orchestrator
    yields [number_paths * vertex_count] walks whatever the sampler; with
    the second-order sampler those of the skipped vertices are yielded as
    empty walks, [number_paths] times the number of skipped vertices of
    them. *)
Theorem skipped_walks_are_yielded_empty :
  (∀ params vertex,
     BiasedRandomWalker._check params vertex = true
     ↔ ∃ s n, sampling_strategy params !! key_of_vertex vertex = Some s
              ∧ s_num_walks s = Some n ∧ (n ≤ number_paths params)%Z)
  ∧ (∀ params src g vertex st, (2 ≤ max_path_length params)%Z →
       (emitted (BiasedRandomWalker.get_igraph_walk params src g vertex st) = []
        ↔ BiasedRandomWalker._check params vertex = true)
       ∧ (BiasedRandomWalker._check params vertex = true →
          raised (BiasedRandomWalker.get_igraph_walk params src g vertex st) = None))
  ∧ (∀ kind params src g st,
       length (Walker.get_walks kind params src g st)
       = Z.to_nat (number_paths params) * vcount g)
  ∧ (∀ params src g st, (2 ≤ max_path_length params)%Z →
       length (List.filter is_empty_walk
                 (Walker.get_walks SecondOrderBiased params src g st))
       = Z.to_nat (number_paths params) * length (skipped_vertices params g)).
Proof.
  split; [|split; [|split]].
  - apply check_spec.
  - intros params src g vertex st Hlen. split.
    + pose proof (biased_walk_empty params src g vertex st Hlen) as H.
      unfold is_empty_walk in H. rewrite <- H.
      destruct (emitted _); split; congruence.
    + intros Hcheck. rewrite biased_walk_skipped by assumption. reflexivity.
  - intros kind params src g st. apply repeat_walks_length.
  - intros params src g st Hlen. apply repeat_walks_empty, Hlen.
Qed.

Lemma skipped_walks_are_yielded_empty_witness :
  (2 ≤ max_path_length skip_params)%Z
  ∧ length (List.filter is_empty_walk
              (Walker.get_walks SecondOrderBiased skip_params half_source lonely
                 start_state))
    = Z.to_nat (number_paths skip_params) * length (skipped_vertices skip_params lonely).
Proof.
  assert (2 ≤ max_path_length skip_params)%Z as H by (vm_compute; discriminate).
  split; [exact H|].
  exact (proj2 (proj2 (proj2 skipped_walks_are_yielded_empty)) skip_params half_source
           lonely start_state H).
Defined.

(** C8, counterexample: the uniform walker does not look at the
    sampling strategy.  On the path A - B, with [max_path_length = 3] and
    the override [walk_length = 2] for vertex A, its walk from A has three
    vertices.  And the walk of a skipped vertex has none. *)
Lemma walk_length_bound_fails :
  BiasedRandomWalker.walk_length length_params 0 = 2%Z
  ∧ length (emitted (Walker.get_walk Uniform length_params half_source path_and_isolated 0
                       start_state)) = 3
  ∧ length (emitted (Walker.get_walk SecondOrderBiased skip_params half_source lonely 0
                       start_state)) = 0.
Proof. repeat split. Qed.

(** C8 (amended): every walk of the uniform and of the restarting walker
    has at least one vertex and, for [max_path_length >= 1], at most the
    global [max_path_length] vertices; these walkers never consult the
    sampling strategy.  For [max_path_length >= 2], every walk of the
    second-order walker from a vertex that is not skipped has at least one
    vertex and, when the effective walk length (the vertex's [walk_length]
    override if present, the global [max_path_length] otherwise) is at
    least 2, at most that many; the walk of a skipped vertex is empty. *)
Theorem walk_length_bounds :
  (∀ params src g vertex st,
     let t := StandardRandomWalker.get_igraph_walk params src g vertex st in
     1 ≤ length (emitted t)
     ∧ ((1 ≤ max_path_length params)%Z →
        (Z.of_nat (length (emitted t)) ≤ max_path_length params)%Z))
  ∧ (∀ params src g vertex st,
       let t := RestartingRandomWalker.get_igraph_walk params src g vertex st in
       1 ≤ length (emitted t)
       ∧ ((1 ≤ max_path_length params)%Z →
          (Z.of_nat (length (emitted t)) ≤ max_path_length params)%Z))
  ∧ (∀ params src g vertex st,
       (2 ≤ max_path_length params)%Z → BiasedRandomWalker._check params vertex = false →
       let t := BiasedRandomWalker.get_igraph_walk params src g vertex st in
       1 ≤ length (emitted t)
       ∧ ((2 ≤ BiasedRandomWalker.walk_length params vertex)%Z →
          (Z.of_nat (length (emitted t)) ≤ BiasedRandomWalker.walk_length params vertex)%Z))
  ∧ (∀ params src g vertex st,
       (2 ≤ max_path_length params)%Z → BiasedRandomWalker._check params vertex = true →
       emitted (BiasedRandomWalker.get_igraph_walk params src g vertex st) = [])
  ∧ (∀ params vertex,
       BiasedRandomWalker.walk_length params vertex
       = match sampling_strategy params !! key_of_vertex vertex with
         | Some s => match s_walk_length s with
                     | Some n => n
                     | None => max_path_length params
                     end
         | None => max_path_length params
         end).
Proof.
  split; [|split; [|split; [|split]]].
  - intros params src g vertex st. unfold StandardRandomWalker.get_igraph_walk. simpl.
    pose proof (standard_loop_length src g (Z.to_nat (max_path_length params - 1))
                  vertex st).
    split; lia.
  - intros params src g vertex st. unfold RestartingRandomWalker.get_igraph_walk. simpl.
    pose proof (restarting_loop_length params src g
                  (Z.to_nat (max_path_length params - 1)) vertex vertex st).
    split; lia.
  - intros params src g vertex st Hlen Hcheck.
    destruct (biased_walk_length params src g vertex st Hlen Hcheck) as [H1 H2].
    split; [exact H1|]. intros Hwl. lia.
  - intros params src g vertex st Hlen Hcheck.
    rewrite biased_walk_skipped by assumption. reflexivity.
  - intros params vertex. unfold BiasedRandomWalker.walk_length.
    destruct (sampling_strategy params !! key_of_vertex vertex) as [s|]; [|reflexivity].
    destruct (s_walk_length s); reflexivity.
Qed.

Lemma walk_length_bounds_witness :
  (2 ≤ max_path_length length_params)%Z
  ∧ BiasedRandomWalker._check length_params 0 = false
  ∧ (2 ≤ BiasedRandomWalker.walk_length length_params 0)%Z
  ∧ (Z.of_nat (length (emitted (BiasedRandomWalker.get_igraph_walk length_params
                                  half_source (built length_params triangle) 0
                                  start_state)))
     ≤ BiasedRandomWalker.walk_length length_params 0)%Z.
Proof.
  assert (2 ≤ max_path_length length_params)%Z as H1 by (vm_compute; discriminate).
  assert (BiasedRandomWalker._check length_params 0 = false) as H2 by reflexivity.
  assert (2 ≤ BiasedRandomWalker.walk_length length_params 0)%Z as H3
    by (vm_compute; discriminate).
  split; [exact H1|]. split; [exact H2|]. split; [exact H3|].
  exact (proj2 (proj1 (proj2 (proj2 walk_length_bounds)) length_params half_source
                  (built length_params triangle) 0 start_state H1 H2) H3).
Defined.

(** C9: the walks of a corpus are a function of the graph, the parameters
    and the draws of the random source alone: two runs on the same graph
    with the same parameters, from the same position of two random sources
    that give the same draws, yield the same walks in the same order,
    whichever sampler is configured. *)
Theorem same_draws_same_walks (kind : Sampler) (params : RandomWalkParameters)
    (src1 src2 : RandomSource) (g : Graph) (st : RandomState) :
  same_draws src1 src2 →
  Walker.get_walks kind params src1 g st = Walker.get_walks kind params src2 g st.
Proof.
  intros Hsame. unfold Walker.get_walks, AbstractRandomWalker.get_walks.
  apply repeat_walks_ext. intros g' v st'. apply get_walk_same, Hsame.
Qed.

Lemma same_draws_same_walks_witness :
  same_draws half_source half_source'
  ∧ Walker.get_walks Uniform short_params half_source triangle start_state
    = Walker.get_walks Uniform short_params half_source' triangle start_state.
Proof.
  assert (same_draws half_source half_source') as H.
  { intros i. simpl. rewrite Nat.sub_diag. split; reflexivity. }
  split; [exact H|].
  exact (same_draws_same_walks Uniform short_params half_source half_source'
           triangle start_state H).
Defined.

(** * Further properties of the walkers *)

(** ** Drawing from a list *)

Lemma unit_index_lt (u : Q) (n : nat) : n ≠ 0 → unit_index u n < n.
Proof. intros Hn. unfold unit_index. apply Nat.mod_upper_bound, Hn. Qed.

Lemma random_choice_inv {A : Type} (src : RandomSource) (l : list A) (st st' : RandomState)
    (x : A) :
  random_choice src l st = inr (x, st') → In x l ∧ st' = py_advance 1 st.
Proof.
  unfold random_choice.
  destruct (l !! unit_index (py_draw src (py_pos st)) (length l)) as [y|] eqn:E;
    [|discriminate].
  intros H. injection H as <- <-. split; [|reflexivity].
  apply list_elem_of_In, list_elem_of_lookup. eauto.
Qed.

Lemma random_choice_nonempty {A : Type} (src : RandomSource) (l : list A) (st : RandomState) :
  l ≠ [] → ∃ x, random_choice src l st = inr (x, py_advance 1 st).
Proof.
  intros Hne. unfold random_choice.
  destruct (lookup_lt_is_Some_2 l (unit_index (py_draw src (py_pos st)) (length l)))
    as [x Hx].
  { apply unit_index_lt. destruct l; [congruence|discriminate]. }
  rewrite Hx. eauto.
Qed.

Lemma np_random_choice_inv {A : Type} (src : RandomSource) (a : list A)
    (p : option (list NpFloat)) (st st' : RandomState) (x : A) :
  np_random_choice src a p st = inr (x, st') → In x a ∧ st' = np_advance 1 st.
Proof.
  unfold np_random_choice. destruct (length a =? 0); [discriminate|].
  assert (∀ i, match a !! i with
               | Some y => inr (y, np_advance 1 st)
               | None => inl IndexError
               end = inr (x, st') → In x a ∧ st' = np_advance 1 st) as Hpick.
  { intros i. destruct (a !! i) as [y|] eqn:E; [|discriminate].
    intros H. injection H as <- <-. split; [|reflexivity].
    apply list_elem_of_In, list_elem_of_lookup. eauto. }
  destruct p as [probs|]; [|apply Hpick].
  destruct (negb _); [discriminate|].
  destruct (np_values probs) as [ps|]; [|discriminate].
  destruct (existsb _ ps); [discriminate|].
  destruct (negb _); [discriminate|]. apply Hpick.
Qed.

(** ** Walks follow the edges *)

Lemma is_path_step (g : Graph) (home : option nat) (prev v : nat) (rest : list nat) :
  In v (neighbors g prev) ∨ home = Some v →
  is_path g home v rest = true → is_path g home prev (v :: rest) = true.
Proof.
  intros Hv Hrest. simpl. rewrite Hrest, andb_true_r. apply orb_true_iff.
  destruct Hv as [Hv|Hv]; [left|right]; apply bool_decide_eq_true_2; [|exact Hv].
  apply list_elem_of_In, Hv.
Qed.

Lemma standard_loop_path (src : RandomSource) (g : Graph) (steps tail : nat)
    (st : RandomState) :
  ∃ path, emitted (StandardRandomWalker.walk_loop src g steps tail st) = labels_of g path
          ∧ is_path g None tail path = true.
Proof.
  revert tail st. induction steps as [|n IH]; intros tail st; simpl.
  - exists []. split; reflexivity.
  - destruct (0 <? neighborhood_size g tail); [|exists []; split; reflexivity].
    destruct (random_choice src (neighbors g tail) st) as [e|[tail' st']] eqn:E.
    + exists []. split; reflexivity.
    + apply random_choice_inv in E as [Hin _].
      destruct (IH tail' st') as (path & Hpath & Hok).
      exists (tail' :: path). split.
      * simpl. rewrite Hpath. reflexivity.
      * apply is_path_step; auto.
Qed.

Lemma restarting_loop_path (params : RandomWalkParameters) (src : RandomSource) (g : Graph)
    (steps vertex tail : nat) (st : RandomState) :
  ∃ path,
    emitted (RestartingRandomWalker.walk_loop params src g steps vertex tail st)
    = labels_of g path
    ∧ is_path g (Some vertex) tail path = true.
Proof.
  revert tail st. induction steps as [|n IH]; intros tail st; simpl.
  - exists []. split; reflexivity.
  - destruct (0 <? neighborhood_size g tail); [|exists []; split; reflexivity].
    destruct (RestartingRandomWalker.next_tail params src g vertex tail st)
      as [e|[tail' st']] eqn:E.
    + exists []. split; reflexivity.
    + assert (In tail' (neighbors g tail) ∨ Some vertex = Some tail') as Hin.
      { unfold RestartingRandomWalker.next_tail in E. simpl in E.
        destruct (Qle_bool _ _).
        - injection E as <- _. right. reflexivity.
        - apply random_choice_inv in E as [Hin _]. left. exact Hin. }
      destruct (IH tail' st') as (path & Hpath & Hok).
      exists (tail' :: path). split.
      * simpl. rewrite Hpath. reflexivity.
      * apply is_path_step; auto.
Qed.

Lemma biased_loop_path (src : RandomSource) (g : Graph) (steps double_tail tail : nat)
    (st : RandomState) :
  ∃ path,
    emitted (BiasedRandomWalker.walk_loop src g steps double_tail tail st)
    = vertices_of path
    ∧ is_path g None tail path = true.
Proof.
  revert double_tail tail st. induction steps as [|n IH]; intros double_tail tail st; simpl.
  - exists []. split; reflexivity.
  - destruct (length (neighbors g tail) =? 0); [exists []; split; reflexivity|].
    destruct (BiasedRandomWalker.transition g tail (vname g double_tail)) as [e|probs];
      [exists []; split; reflexivity|].
    destruct (np_random_choice src (neighbors g tail) (Some probs) st)
      as [e|[tail' st']] eqn:E.
    + exists []. split; reflexivity.
    + apply np_random_choice_inv in E as [Hin _].
      destruct (IH tail tail' st') as (path & Hpath & Hok).
      exists (tail' :: path). split.
      * simpl. rewrite Hpath. reflexivity.
      * apply is_path_step; auto.
Qed.

(** X1: every walk follows the edges of the graph.  What the uniform walker
    yields are the labels of the start vertex and of vertices each of which
    is a neighbor of the one before it; the restarting walker does the
    same, except that a vertex may also be the start vertex again; the
    second-order walker yields nothing, or the start vertex followed by
    vertices each of which is a neighbor of the one before it.  This holds
    for walks cut short by an exception as well. *)
Theorem walks_follow_edges (params : RandomWalkParameters) (src : RandomSource)
    (g : Graph) (vertex : nat) (st : RandomState) :
  (∃ path,
     emitted (StandardRandomWalker.get_igraph_walk params src g vertex st)
     = labels_of g (vertex :: path)
     ∧ is_path g None vertex path = true)
  ∧ (∃ path,
       emitted (RestartingRandomWalker.get_igraph_walk params src g vertex st)
       = labels_of g (vertex :: path)
       ∧ is_path g (Some vertex) vertex path = true)
  ∧ (emitted (BiasedRandomWalker.get_igraph_walk params src g vertex st) = []
     ∨ ∃ path,
         emitted (BiasedRandomWalker.get_igraph_walk params src g vertex st)
         = vertices_of (vertex :: path)
         ∧ is_path g None vertex path = true).
Proof.
  split; [|split].
  - unfold StandardRandomWalker.get_igraph_walk.
    destruct (standard_loop_path src g (Z.to_nat (max_path_length params - 1)) vertex st)
      as (path & Hpath & Hok).
    exists path. split; [|exact Hok]. simpl. rewrite Hpath. reflexivity.
  - unfold RestartingRandomWalker.get_igraph_walk.
    destruct (restarting_loop_path params src g (Z.to_nat (max_path_length params - 1))
                vertex vertex st) as (path & Hpath & Hok).
    exists path. split; [|exact Hok]. simpl. rewrite Hpath. reflexivity.
  - unfold BiasedRandomWalker.get_igraph_walk.
    destruct (max_path_length params <? 2)%Z; [left; reflexivity|].
    destruct (BiasedRandomWalker._check params vertex); [left; reflexivity|]. right.
    destruct (BiasedRandomWalker.first_travel g vertex) as [e|probs];
      [exists []; split; reflexivity|].
    destruct (np_random_choice src (neighbors g vertex) probs st) as [e|[tail st']] eqn:E;
      [exists []; split; reflexivity|].
    apply np_random_choice_inv in E as [Hin _].
    destruct (biased_loop_path src g
                (Z.to_nat (BiasedRandomWalker.walk_length params vertex - 2)) vertex tail st')
      as (path & Hpath & Hok).
    exists (tail :: path). split.
    + simpl. rewrite Hpath. reflexivity.
    + apply is_path_step; auto.
Qed.

(** ** Walks from a vertex that has a neighbor *)

Lemma neighbor_has_neighbor (g : Graph) (v x : nat) :
  v < vcount g → In x (neighbors g v) → x < vcount g ∧ neighbors g x ≠ [].
Proof.
  intros Hv Hx. split; [eapply neighbors_lt, Hx|].
  intros Hnil. apply (neighbors_sym g v x Hv) in Hx. rewrite Hnil in Hx. contradiction.
Qed.

Lemma standard_loop_full (src : RandomSource) (g : Graph) (steps tail : nat)
    (st : RandomState) :
  tail < vcount g → neighbors g tail ≠ [] →
  let t := StandardRandomWalker.walk_loop src g steps tail st in
  raised t = None ∧ length (emitted t) = steps.
Proof.
  revert tail st. induction steps as [|n IH]; intros tail st Hlt Hne; simpl;
    [split; reflexivity|].
  rewrite neighborhood_size_positive.
  destruct (random_choice_nonempty src (neighbors g tail) st Hne) as [x Hx].
  rewrite Hx. apply random_choice_inv in Hx as [Hin _].
  destruct (neighbor_has_neighbor g tail x Hlt Hin) as [Hxlt Hxne].
  destruct (IH x (py_advance 1 st) Hxlt Hxne) as [Hr Hl].
  simpl. rewrite Hr, Hl. split; reflexivity.
Qed.

Lemma restarting_loop_full (params : RandomWalkParameters) (src : RandomSource)
    (g : Graph) (steps vertex tail : nat) (st : RandomState) :
  vertex < vcount g → neighbors g vertex ≠ [] →
  tail < vcount g → neighbors g tail ≠ [] →
  let t := RestartingRandomWalker.walk_loop params src g steps vertex tail st in
  raised t = None ∧ length (emitted t) = steps.
Proof.
  intros Hv Hvne. revert tail st.
  induction steps as [|n IH]; intros tail st Hlt Hne; simpl; [split; reflexivity|].
  rewrite neighborhood_size_positive.
  unfold RestartingRandomWalker.next_tail. simpl.
  destruct (Qle_bool _ _).
  - destruct (IH vertex (py_advance 1 st) Hv Hvne) as [Hr Hl].
    simpl. rewrite Hr, Hl. split; reflexivity.
  - destruct (random_choice_nonempty src (neighbors g tail) (py_advance 1 st) Hne)
      as [x Hx].
    rewrite Hx. apply random_choice_inv in Hx as [Hin _].
    destruct (neighbor_has_neighbor g tail x Hlt Hin) as [Hxlt Hxne].
    destruct (IH x (py_advance 1 (py_advance 1 st)) Hxlt Hxne) as [Hr Hl].
    simpl. rewrite Hr, Hl. split; reflexivity.
Qed.

(** X2: from a start vertex that has a neighbor, the uniform and the
    restarting walker never raise and never stop early: the walk has
    exactly [max_path_length] labels (one label when [max_path_length] is
    below 1). *)
Theorem uniform_walks_are_full (params : RandomWalkParameters) (src : RandomSource)
    (g : Graph) (vertex : nat) (st : RandomState) :
  vertex < vcount g → neighbors g vertex ≠ [] →
  (let t := StandardRandomWalker.get_igraph_walk params src g vertex st in
   raised t = None
   ∧ Z.of_nat (length (emitted t)) = Z.max 1 (max_path_length params))
  ∧ (let t := RestartingRandomWalker.get_igraph_walk params src g vertex st in
     raised t = None
     ∧ Z.of_nat (length (emitted t)) = Z.max 1 (max_path_length params)).
Proof.
  intros Hlt Hne. split.
  - unfold StandardRandomWalker.get_igraph_walk.
    destruct (standard_loop_full src g (Z.to_nat (max_path_length params - 1)) vertex st
                Hlt Hne) as [Hr Hl].
    simpl. rewrite Hr, Hl. split; [reflexivity|lia].
  - unfold RestartingRandomWalker.get_igraph_walk.
    destruct (restarting_loop_full params src g (Z.to_nat (max_path_length params - 1))
                vertex vertex st Hlt Hne Hlt Hne) as [Hr Hl].
    simpl. rewrite Hr, Hl. split; [reflexivity|lia].
Qed.

Lemma uniform_walks_are_full_witness :
  0 < vcount triangle
  ∧ neighbors triangle 0 ≠ []
  ∧ raised (StandardRandomWalker.get_igraph_walk short_params half_source triangle 0
              start_state) = None
  ∧ Z.of_nat (length (emitted (StandardRandomWalker.get_igraph_walk short_params
                                 half_source triangle 0 start_state)))
    = Z.max 1 (max_path_length short_params).
Proof.
  assert (0 < vcount triangle) as H1 by (vm_compute; lia).
  assert (neighbors triangle 0 ≠ []) as H2 by (vm_compute; discriminate).
  split; [exact H1|]. split; [exact H2|].
  exact (proj1 (uniform_walks_are_full short_params half_source triangle 0 start_state
                  H1 H2)).
Defined.

(** ** Drawing from a stored array *)

Lemma cdf_index_lt (u : Q) (ps : list Q) (acc : Q) :
  (acc <= u)%Q → (u < acc + Qsum ps)%Q → cdf_index u acc ps < length ps.
Proof.
  revert acc. induction ps as [|x ps IH]; intros acc Hlo Hhi; simpl in *.
  - lra.
  - destruct (Qle_bool (acc + x) u) eqn:E; [|lia].
    apply Qle_bool_iff in E.
    assert (cdf_index u (acc + x) ps < length ps) by (apply IH; lra). lia.
Qed.

Lemma np_values_length (probs : list NpFloat) (ps : list Q) :
  np_values probs = Some ps → length ps = length probs.
Proof.
  revert ps. induction probs as [|x probs IH]; intros ps H; simpl in H.
  - injection H as <-. reflexivity.
  - destruct (np_finite x); [|discriminate].
    destruct (np_values probs) as [vs0|]; [|discriminate].
    injection H as <-. simpl. rewrite (IH vs0); reflexivity.
Qed.

(** With draws of the unit interval, [numpy.random.choice] returns one of
    the candidates or raises [ValueError], whatever array it is given. *)
Lemma np_random_choice_cases {A : Type} (src : RandomSource) (a : list A)
    (p : option (list NpFloat)) (st : RandomState) :
  unit_draws src →
  (∃ x, np_random_choice src a p st = inr (x, np_advance 1 st))
  ∨ np_random_choice src a p st = inl ValueError.
Proof.
  intros Hdraw. unfold np_random_choice.
  destruct (Nat.eqb_spec (length a) 0) as [|Hlen]; [right; reflexivity|].
  destruct (Hdraw (np_pos st)) as (_ & _ & Hlo & Hhi).
  destruct p as [probs|].
  - destruct (Nat.eqb_spec (length probs) (length a)) as [Hsize|]; simpl;
      [|right; reflexivity].
    destruct (np_values probs) as [ps|] eqn:Evals; [|right; reflexivity].
    destruct (existsb _ ps); [right; reflexivity|].
    destruct (Qeq_bool (Qsum ps) 1) eqn:Esum; simpl; [|right; reflexivity].
    apply Qeq_bool_iff in Esum.
    destruct (lookup_lt_is_Some_2 a (cdf_index (np_draw src (np_pos st)) 0 ps)) as [x Hx].
    { rewrite <- Hsize, <- (np_values_length probs ps Evals). apply cdf_index_lt; lra. }
    rewrite Hx. left. eauto.
  - destruct (lookup_lt_is_Some_2 a (unit_index (np_draw src (np_pos st)) (length a)))
      as [x Hx]; [apply unit_index_lt, Hlen|].
    rewrite Hx. left. eauto.
Qed.

(** ** The second-order walker on the built tables *)

Lemma fold_spec_step_done (params : RandomWalkParameters) (g : Graph)
    (pairs : list (nat * nat)) (st0 : Graph * gset string) (s c : nat) :
  In (s, c) pairs → vname g c ∈ (fold_left (spec_step params g) pairs st0).2.
Proof.
  induction pairs as [|pr pairs IH] using rev_ind; [intros []|].
  intros Hin. rewrite fold_left_app. simpl. apply spec_step_done.
  apply in_app_or in Hin as [Hin|[->|[]]]; [right; apply IH, Hin|left; reflexivity].
Qed.

(** Once a name is marked done, some vertex has the first-travel attribute. *)
Lemma fold_spec_step_first_travel_set (params : RandomWalkParameters) (g : Graph)
    (pairs : list (nat * nat)) (st0 : Graph * gset string) :
  (∀ name, name ∈ st0.2 → g_first_travel_key st0.1 ≠ ∅) →
  let st := fold_left (spec_step params g) pairs st0 in
  ∀ name, name ∈ st.2 → g_first_travel_key st.1 ≠ ∅.
Proof.
  intros H0. induction pairs as [|pr pairs IH] using rev_ind; simpl; [exact H0|].
  rewrite fold_left_app. simpl.
  set (st := fold_left (spec_step params g) pairs st0) in *. simpl in IH.
  intros name. unfold spec_step.
  destruct (decide (vname g pr.2 ∈ st.2)) as [Hdone|Hnew]; simpl.
  - apply IH.
  - intros _. apply insert_non_empty.
Qed.

Section built_tables.
Context (params : RandomWalkParameters) (src : RandomSource) (g g' : Graph).
Context (Hbias : nonzero_bias params g = true).
Context (Hdraws : unit_draws src).
Context (Hbuilt : Node2VecModel._precompute_probs params g = inr g').

(** On the built graph every lookup of the walker finds its entry. *)
Lemma built_tables_lookups :
  same_shape g g'
  ∧ (∀ u v, u < vcount g → In v (neighbors g u) →
       ∃ probs, BiasedRandomWalker.transition g' v (vname g' u) = inr probs)
  ∧ (∀ v, v < vcount g → neighbors g v ≠ [] →
       ∃ p, BiasedRandomWalker.first_travel g' v = inr p).
Proof.
  pose proof (precompute_probs_spec params g Hbias) as Hrun.
  rewrite Hbuilt in Hrun. injection Hrun as Hg'.
  assert (same_shape g g') as Hs.
  { rewrite Hg'. apply fold_spec_step_ready, reset_ready. }
  split; [exact Hs|]. split.
  - intros u v Hu Hv. unfold BiasedRandomWalker.transition.
    destruct (precompute_probs_transitions params g Hbias) as (g0 & Hrun & Hprob).
    rewrite Hbuilt in Hrun. injection Hrun as <-.
    destruct (Hprob u v Hu Hv) as (t & u' & -> & _ & _ & _ & Ht).
    rewrite (vname_shape g g') by exact Hs. rewrite Ht. eauto.
  - intros v Hv Hne. unfold BiasedRandomWalker.first_travel.
    destruct (decide (g_first_travel_key g' = ∅)) as [Hempty|_]; [|eauto].
    exfalso. destruct (neighbors g v) as [|x rest] eqn:E; [congruence|].
    assert (In (x, v) (visited_pairs g)) as Hin.
    { assert (In x (neighbors g v)) as Hx by (rewrite E; left; reflexivity).
      apply In_visited_pairs. split; [eapply neighbors_lt, Hx|].
      apply neighbors_sym; assumption. }
    revert Hempty. rewrite Hg'.
    apply (fold_spec_step_first_travel_set params g (visited_pairs g)
             (Node2VecModel.reset_probabilities g, ∅)) with (name := vname g v).
    + intros name Hname. simpl in Hname. exfalso. revert Hname. apply not_elem_of_empty.
    + apply (fold_spec_step_done params g _ _ x v Hin).
Qed.

Lemma biased_loop_cases (steps double_tail tail : nat) (st : RandomState) :
  double_tail < vcount g → In tail (neighbors g double_tail) →
  let t := BiasedRandomWalker.walk_loop src g' steps double_tail tail st in
  (raised t = None ∨ raised t = Some ValueError)
  ∧ (raised t = None → length (emitted t) = steps).
Proof.
  destruct built_tables_lookups as (Hs & Htrans & _).
  revert double_tail tail st.
  induction steps as [|n IH]; intros double_tail tail st Hdt Htail; simpl;
    [split; [left|]; reflexivity|].
  destruct (neighbor_has_neighbor g double_tail tail Hdt Htail) as [Hlt Hne].
  rewrite (neighbors_shape g g') by exact Hs.
  destruct (Nat.eqb_spec (length (neighbors g tail)) 0) as [H0|_].
  { destruct (neighbors g tail); simpl in *; congruence. }
  destruct (Htrans double_tail tail Hdt Htail) as [probs ->].
  destruct (np_random_choice_cases src (neighbors g tail) (Some probs) st Hdraws)
    as [[x Hx]| ->]; [|simpl; split; [right; reflexivity|discriminate]].
  rewrite Hx. apply np_random_choice_inv in Hx as [Hin _].
  destruct (IH tail x (np_advance 1 st) Hlt Hin) as [Hr Hl].
  simpl. split; [exact Hr|]. intros Hnone. rewrite Hl by exact Hnone. reflexivity.
Qed.

End built_tables.

(** X3: on the graph that a completed precomputation leaves behind
    (non-zero resolved [p] and [q]), with draws of the unit interval, the
    second-order walker started from a vertex that has a neighbor and is
    not skipped finds every table entry it looks up: the only exception it
    can raise is the [ValueError] of [numpy.random.choice] on the stored
    array.  When it does not raise it never stops early: with
    [max_path_length >= 2] the walk has exactly the vertex's walk length
    ([walk_length] override, else [max_path_length]) vertices, and two
    vertices when that length is below 2. *)
Theorem biased_walks_fail_only_in_choice (params : RandomWalkParameters)
    (src : RandomSource) (g g' : Graph) (vertex : nat) (st : RandomState) :
  nonzero_bias params g = true → unit_draws src →
  Node2VecModel._precompute_probs params g = inr g' →
  vertex < vcount g → neighbors g vertex ≠ [] →
  (2 ≤ max_path_length params)%Z → BiasedRandomWalker._check params vertex = false →
  let t := BiasedRandomWalker.get_igraph_walk params src g' vertex st in
  (raised t = None ∨ raised t = Some ValueError)
  ∧ (raised t = None →
     Z.of_nat (length (emitted t)) = Z.max 2 (BiasedRandomWalker.walk_length params vertex)).
Proof.
  intros Hb Hd Hbuilt Hlt Hne Hlen Hcheck.
  destruct (built_tables_lookups params g g' Hb Hbuilt) as (Hs & _ & Hfirst).
  unfold BiasedRandomWalker.get_igraph_walk.
  destruct (Z.ltb_spec (max_path_length params) 2) as [?|_]; [lia|].
  rewrite Hcheck. destruct (Hfirst vertex Hlt Hne) as [p ->].
  rewrite (neighbors_shape g g') by exact Hs.
  destruct (np_random_choice_cases src (neighbors g vertex) p st Hd)
    as [[x Hx]| ->]; [|simpl; split; [right; reflexivity|discriminate]].
  rewrite Hx. apply np_random_choice_inv in Hx as [Hin _].
  destruct (biased_loop_cases params src g g' Hb Hd Hbuilt
              (Z.to_nat (BiasedRandomWalker.walk_length params vertex - 2)) vertex x
              (np_advance 1 st) Hlt Hin) as [Hr Hl].
  simpl. split; [exact Hr|]. intros Hnone. rewrite Hl by exact Hnone. lia.
Qed.

Lemma half_source_unit_draws : unit_draws half_source.
Proof. intros i. simpl. repeat split; unfold Qle, Qlt; simpl; lia. Qed.

Lemma biased_walks_fail_only_in_choice_witness :
  nonzero_bias length_params triangle = true
  ∧ unit_draws half_source
  ∧ Node2VecModel._precompute_probs length_params triangle
    = inr (built length_params triangle)
  ∧ 0 < vcount triangle
  ∧ neighbors triangle 0 ≠ []
  ∧ (2 ≤ max_path_length length_params)%Z
  ∧ BiasedRandomWalker._check length_params 0 = false
  ∧ (raised (BiasedRandomWalker.get_igraph_walk length_params half_source
               (built length_params triangle) 0 start_state) = None
     ∨ raised (BiasedRandomWalker.get_igraph_walk length_params half_source
                 (built length_params triangle) 0 start_state) = Some ValueError)
  ∧ (raised (BiasedRandomWalker.get_igraph_walk length_params half_source
               (built length_params triangle) 0 start_state) = None →
     Z.of_nat (length (emitted (BiasedRandomWalker.get_igraph_walk length_params
                                  half_source (built length_params triangle) 0
                                  start_state)))
     = Z.max 2 (BiasedRandomWalker.walk_length length_params 0)).
Proof.
  assert (nonzero_bias length_params triangle = true) as H1 by (vm_compute; reflexivity).
  assert (Node2VecModel._precompute_probs length_params triangle
          = inr (built length_params triangle)) as H4 by (vm_compute; reflexivity).
  assert (0 < vcount triangle) as H5 by (vm_compute; lia).
  assert (neighbors triangle 0 ≠ []) as H6 by (vm_compute; discriminate).
  assert (2 ≤ max_path_length length_params)%Z as H7 by (vm_compute; discriminate).
  assert (BiasedRandomWalker._check length_params 0 = false) as H8 by reflexivity.
  split; [exact H1|]. split; [exact half_source_unit_draws|]. split; [exact H4|].
  split; [exact H5|]. split; [exact H6|]. split; [exact H7|]. split; [exact H8|].
  exact (biased_walks_fail_only_in_choice length_params half_source triangle
           (built length_params triangle) 0 start_state
           H1 half_source_unit_draws H4 H5 H6 H7 H8).
Defined.

(** * Further properties of the table builder *)

(** ** What a visit leaves alone *)

Lemma spec_step_first_travel (params : RandomWalkParameters) (g : Graph)
    (st : Graph * gset string) (pr : nat * nat) (c : nat) :
  c ≠ pr.2 →
  g_first_travel_key (spec_step params g st pr).1 !! c = g_first_travel_key st.1 !! c.
Proof.
  intros Hne. unfold spec_step. destruct (decide _); simpl; [reflexivity|].
  apply lookup_insert_ne. congruence.
Qed.

Lemma spec_step_shape (params : RandomWalkParameters) (g : Graph)
    (st : Graph * gset string) (pr : nat * nat) :
  same_shape st.1 (spec_step params g st pr).1.
Proof. unfold spec_step. destruct (decide _); repeat split. Qed.

Lemma same_shape_trans (g1 g2 g3 : Graph) :
  same_shape g1 g2 → same_shape g2 g3 → same_shape g1 g3.
Proof. intros (?&?&?) (?&?&?). repeat split; congruence. Qed.

(** After the pairs [pairs] have been visited from the state [st0]: a
    vertex that was never the current one keeps its attributes; the keys of
    a ['probabilities'] dict are those it had plus the names of the sources
    it was visited from, and each of these names is a key. *)
Lemma fold_spec_step_frame (params : RandomWalkParameters) (g : Graph)
    (pairs : list (nat * nat)) (st0 : Graph * gset string) :
  let st := fold_left (spec_step params g) pairs st0 in
  same_shape st0.1 st.1
  ∧ (∀ c, (∀ s, ¬ In (s, c) pairs) →
       g_probabilities st.1 !! c = g_probabilities st0.1 !! c
       ∧ g_first_travel_key st.1 !! c = g_first_travel_key st0.1 !! c)
  ∧ (∀ c t k, g_probabilities st.1 !! c = Some t → is_Some (t !! k) →
       (∃ s, In (s, c) pairs ∧ k = vname g s)
       ∨ (∃ t0, g_probabilities st0.1 !! c = Some t0 ∧ is_Some (t0 !! k)))
  ∧ (∀ s c, In (s, c) pairs →
       ∃ t, g_probabilities st.1 !! c = Some t ∧ is_Some (t !! vname g s)).
Proof.
  induction pairs as [|pr pairs IH] using rev_ind; simpl.
  - split; [apply same_shape_refl|]. split; [auto|]. split; [eauto|]. intros s c [].
  - rewrite fold_left_app. simpl.
    destruct IH as (Hs & Hkeep & Hkeys & Hhas).
    set (st := fold_left (spec_step params g) pairs st0) in *.
    destruct pr as [s0 c0].
    split; [eapply same_shape_trans; [exact Hs|apply spec_step_shape]|].
    split; [|split].
    + intros c Hc.
      assert (c ≠ c0) as Hne.
      { intros ->. apply (Hc s0), in_or_app. right. left. reflexivity. }
      rewrite spec_step_probabilities, spec_step_first_travel by (simpl; congruence).
      simpl. rewrite lookup_insert_ne by congruence.
      apply Hkeep. intros s Hin. apply (Hc s), in_or_app. left. exact Hin.
    + intros c t k Ht Hk. rewrite spec_step_probabilities in Ht. simpl in Ht.
      destruct (decide (c0 = c)) as [->|Hne].
      * rewrite lookup_insert_eq in Ht. injection Ht as <-.
        destruct (decide (vname g s0 = k)) as [<-|Hk'].
        -- left. exists s0. split; [|reflexivity]. apply in_or_app. right. left.
           reflexivity.
        -- rewrite lookup_insert_ne in Hk by exact Hk'.
           destruct (g_probabilities st.1 !! c) as [t1|] eqn:E; simpl in Hk.
           ++ destruct (Hkeys c t1 k E Hk) as [(s & Hin & ->)|Hold]; [|right; exact Hold].
              left. exists s. split; [|reflexivity]. apply in_or_app. left. exact Hin.
           ++ rewrite lookup_empty in Hk. destruct Hk as [? Hk]. discriminate.
      * rewrite lookup_insert_ne in Ht by exact Hne.
        destruct (Hkeys c t k Ht Hk) as [(s & Hin & ->)|Hold]; [|right; exact Hold].
        left. exists s. split; [|reflexivity]. apply in_or_app. left. exact Hin.
    + intros s c Hin. rewrite spec_step_probabilities. simpl.
      apply in_app_or in Hin as [Hin|[Heq|[]]].
      * destruct (Hhas s c Hin) as (t & Ht & Hk).
        destruct (decide (c0 = c)) as [->|Hne].
        -- rewrite lookup_insert_eq, Ht. simpl. eexists. split; [reflexivity|].
           destruct (decide (vname g s0 = vname g s)) as [->|Hk'].
           ++ rewrite lookup_insert_eq. eauto.
           ++ rewrite lookup_insert_ne by exact Hk'. exact Hk.
        -- rewrite lookup_insert_ne by exact Hne. eauto.
      * injection Heq as <- <-. rewrite lookup_insert_eq. eexists. split; [reflexivity|].
        rewrite lookup_insert_eq. eauto.
Qed.

Lemma visited_as_current (g : Graph) (c : nat) :
  (∃ s, In (s, c) (visited_pairs g)) ↔ c < vcount g ∧ neighbors g c ≠ [].
Proof.
  split.
  - intros (s & Hin). apply In_visited_pairs in Hin as [Hs Hc].
    apply (neighbor_has_neighbor g s c Hs Hc).
  - intros [Hc Hne]. destruct (neighbors g c) as [|x rest] eqn:E; [congruence|].
    assert (In x (neighbors g c)) as Hx by (rewrite E; left; reflexivity).
    exists x. apply In_visited_pairs. split; [eapply neighbors_lt, Hx|].
    apply neighbors_sym; assumption.
Qed.



(** ** Building twice *)

Lemma nonzero_bias_shape (params : RandomWalkParameters) (g g' : Graph) :
  same_shape g g' → nonzero_bias params g' = nonzero_bias params g.
Proof.
  intros (_ & Hv & _). unfold nonzero_bias, vs, vcount, vname. rewrite Hv. reflexivity.
Qed.

Lemma unique_names_shape (g g' : Graph) :
  same_shape g g' → unique_names g' = unique_names g.
Proof. intros (_ & Hv & _). unfold unique_names. rewrite Hv. reflexivity. Qed.

Lemma graph_eq (g1 g2 : Graph) :
  same_shape g1 g2 → g_probabilities g2 = g_probabilities g1 →
  g_first_travel_key g2 = g_first_travel_key g1 → g2 = g1.
Proof.
  intros (Hd & Hv & He) Hp Hf. destruct g1, g2. simpl in *. subst. reflexivity.
Qed.

(** Every attribute of the graph a completed precomputation leaves behind. *)
Lemma precompute_probs_full (params : RandomWalkParameters) (g : Graph) :
  nonzero_bias params g = true → unique_names g = true →
  ∃ g', Node2VecModel._precompute_probs params g = inr g'
    ∧ same_shape g g'
    ∧ (∀ v, v < vcount g →
         ∃ t, g_probabilities g' !! v = Some t
              ∧ (∀ u, In u (neighbors g v) →
                   t !! vname g u = Some (spec_transition params g u v))
              ∧ (∀ k, is_Some (t !! k) → ∃ u, In u (neighbors g v) ∧ k = vname g u))
    ∧ (∀ v, vcount g ≤ v → g_probabilities g' !! v = g_probabilities g !! v)
    ∧ (∀ v, v < vcount g → neighbors g v ≠ [] →
         g_first_travel_key g' !! v = Some (spec_first_travel g v))
    ∧ (∀ v, ¬ (v < vcount g ∧ neighbors g v ≠ []) →
         g_first_travel_key g' !! v = g_first_travel_key g !! v).
Proof.
  intros Hnz Hu.
  destruct (precompute_probs_tables params g Hnz Hu) as (g' & Hrun & Hs & Hprob & Hfirst).
  exists g'. split; [exact Hrun|]. split; [exact Hs|].
  rewrite precompute_probs_spec in Hrun by exact Hnz. injection Hrun as Hrun.
  destruct (fold_spec_step_frame params g (visited_pairs g)
              (Node2VecModel.reset_probabilities g, ∅)) as (_ & Hkeep & Hkeys & _).
  simpl in Hkeep, Hkeys. rewrite Hrun in Hkeep, Hkeys.
  destruct (reset_loop (vs g) g) as (_ & Hftk & Hreset).
  fold (Node2VecModel.reset_probabilities g) in Hftk, Hreset.
  split; [|split; [|split; [exact Hfirst|]]].
  - intros v Hv.
    pose proof (precompute_probs_cases params g) as Hcases.
    rewrite precompute_probs_spec, Hrun in Hcases by exact Hnz.
    destruct Hcases as [_ Hd]. destruct (Hd v Hv) as [t Ht].
    exists t. split; [exact Ht|]. split.
    + intros u Hin. destruct (Hprob u v) as (t' & Ht' & Hval).
      * eapply neighbors_lt, Hin.
      * apply neighbors_sym; assumption.
      * rewrite Ht in Ht'. injection Ht' as <-. exact Hval.
    + intros k Hk. destruct (Hkeys v t k Ht Hk) as [(s & Hin & ->)|(t0 & Ht0 & Hk0)].
      * apply In_visited_pairs in Hin as [Hlt Hin]. exists s. split; [|reflexivity].
        apply neighbors_sym; assumption.
      * rewrite Hreset, bool_decide_eq_true_2 in Ht0
          by (apply list_elem_of_In; unfold vs; apply in_seq; lia).
        injection Ht0 as <-. rewrite lookup_empty in Hk0. destruct Hk0 as [? Hk0].
        discriminate.
  - intros v Hv. destruct (Hkeep v) as [Hp _].
    + intros s Hin. apply In_visited_pairs in Hin as [_ Hin].
      apply neighbors_lt in Hin. lia.
    + rewrite Hp, Hreset. rewrite bool_decide_eq_false_2; [reflexivity|].
      intros Hin. apply list_elem_of_In in Hin. unfold vs in Hin. apply in_seq in Hin. lia.
  - intros v Hv. destruct (Hkeep v) as [_ Hf].
    + intros s Hin. apply Hv, visited_as_current. eauto.
    + rewrite Hf, Hftk. reflexivity.
Qed.

(** X5: the precomputation is idempotent.  When it completes on a graph
    (non-zero resolved [p] and [q], distinct vertex names), running it
    again with the same parameters on the graph it left behind completes
    and leaves that graph as it is: tables of an earlier build neither
    survive nor accumulate. *)
Theorem precompute_is_idempotent (params : RandomWalkParameters) (g g' : Graph) :
  nonzero_bias params g = true → unique_names g = true →
  Node2VecModel._precompute_probs params g = inr g' →
  Node2VecModel._precompute_probs params g' = inr g'.
Proof.
  intros Hnz Hu Hrun.
  destruct (precompute_probs_full params g Hnz Hu)
    as (g1 & Hrun1 & Hs & Hprob & Hout & Hfirst & Hkeep).
  rewrite Hrun in Hrun1. injection Hrun1 as <-.
  destruct (precompute_probs_full params g')
    as (g2 & Hrun2 & Hs2 & Hprob2 & Hout2 & Hfirst2 & Hkeep2).
  { rewrite (nonzero_bias_shape params g g') by exact Hs. exact Hnz. }
  { rewrite (unique_names_shape g g') by exact Hs. exact Hu. }
  rewrite Hrun2. f_equal.
  rewrite (vcount_shape g g') in Hprob2, Hout2, Hfirst2, Hkeep2 by exact Hs.
  apply graph_eq; [exact Hs2| |].
  - apply map_eq. intros v. destruct (le_lt_dec (vcount g) v) as [Hge|Hlt].
    + apply Hout2, Hge.
    + destruct (Hprob v Hlt) as (t1 & Ht1 & Hval1 & Hkey1).
      destruct (Hprob2 v Hlt) as (t2 & Ht2 & Hval2 & Hkey2).
      rewrite Ht1, Ht2. f_equal. apply map_eq. intros k.
      destruct (t2 !! k) as [d2|] eqn:E2.
      * destruct (Hkey2 k) as (u & Hin & ->); [rewrite E2; eauto|].
        rewrite Hval2 in E2 by exact Hin. injection E2 as <-.
        rewrite (neighbors_shape g g') in Hin by exact Hs.
        rewrite (vname_shape g g') by exact Hs.
        rewrite (spec_transition_shape params g g') by exact Hs.
        symmetry. apply Hval1, Hin.
      * destruct (t1 !! k) as [d1|] eqn:E1; [|reflexivity].
        destruct (Hkey1 k) as (u & Hin & ->); [rewrite E1; eauto|].
        rewrite <- (neighbors_shape g g') in Hin by exact Hs.
        rewrite <- (vname_shape g g') in E2 by exact Hs.
        rewrite Hval2 in E2 by exact Hin. discriminate.
  - apply map_eq. intros v.
    destruct (le_lt_dec (vcount g) v) as [Hge|Hlt].
    + apply Hkeep2. intros [H _]. lia.
    + destruct (neighbors g v) as [|x rest] eqn:E.
      * apply Hkeep2. rewrite (neighbors_shape g g') by exact Hs. rewrite E. tauto.
      * rewrite Hfirst2, Hfirst.
        -- rewrite (spec_first_travel_shape g g') by exact Hs. reflexivity.
        -- exact Hlt.
        -- rewrite E. discriminate.
        -- exact Hlt.
        -- rewrite (neighbors_shape g g') by exact Hs. rewrite E. discriminate.
Qed.

Lemma precompute_is_idempotent_witness :
  nonzero_bias bias_params triangle = true
  ∧ unique_names triangle = true
  ∧ Node2VecModel._precompute_probs bias_params triangle
    = inr (built bias_params triangle)
  ∧ Node2VecModel._precompute_probs bias_params (built bias_params triangle)
    = inr (built bias_params triangle).
Proof.
  assert (nonzero_bias bias_params triangle = true) as H1 by (vm_compute; reflexivity).
  assert (unique_names triangle = true) as H2 by (vm_compute; reflexivity).
  assert (Node2VecModel._precompute_probs bias_params triangle
          = inr (built bias_params triangle)) as H3 by (vm_compute; reflexivity).
  split; [exact H1|]. split; [exact H2|]. split; [exact H3|].
  exact (precompute_is_idempotent bias_params triangle (built bias_params triangle)
           H1 H2 H3).
Defined.

(** ** Unbiased parameters *)

Lemma Qsum_map_ext {A : Type} (f h : A → Q) (l : list A) :
  (∀ x, In x l → (f x == h x)%Q) → (Qsum (map f l) == Qsum (map h l))%Q.
Proof.
  induction l as [|x l IH]; intros Hext; simpl; [reflexivity|].
  rewrite (Hext x (or_introl eq_refl)), IH; [reflexivity|].
  intros y Hy. apply Hext. right. exact Hy.
Qed.

Lemma Qeq_bool_congr (a b c : Q) : (a == b)%Q → Qeq_bool a c = Qeq_bool b c.
Proof.
  intros H. destruct (Qeq_bool b c) eqn:E.
  - apply Qeq_bool_iff. apply Qeq_bool_iff in E. rewrite H. exact E.
  - apply Qeq_bool_false. apply Qeq_bool_false in E. rewrite H. exact E.
Qed.

Lemma scaled_entries_same {A : Type} (f h : A → Q) (s1 s2 : Q) (l : list A) :
  (s1 == s2)%Q → (∀ x, In x l → (f x == h x)%Q) →
  same_distribution
    (map (fun x => if Qeq_bool s1 0 then NotFinite else Finite (x / s1)%Q) (map f l))
    (map (fun x => if Qeq_bool s2 0 then NotFinite else Finite (x / s2)%Q) (map h l))
  = true.
Proof.
  intros Hs Hext. unfold same_distribution. rewrite !length_map, Nat.eqb_refl. simpl.
  rewrite (Qeq_bool_congr s1 s2 0 Hs).
  induction l as [|x l IH]; simpl; [reflexivity|].
  rewrite IH by (intros y Hy; apply Hext; right; exact Hy). rewrite andb_true_r.
  destruct (Qeq_bool s2 0) eqn:E; simpl; [reflexivity|].
  apply Qeq_bool_iff. rewrite (Hext x (or_introl eq_refl)), Hs. reflexivity.
Qed.

(** Normalising weights that agree up to equality of rationals gives the
    same array. *)
Lemma np_normalize_map_ext {A : Type} (f h : A → Q) (l : list A) :
  (∀ x, In x l → (f x == h x)%Q) →
  same_distribution (np_normalize (map f l)) (np_normalize (map h l)) = true.
Proof.
  intros Hext. unfold np_normalize. apply scaled_entries_same; [|exact Hext].
  apply Qsum_map_ext, Hext.
Qed.

Lemma unit_bias_at (params : RandomWalkParameters) (g : Graph) (v : nat) :
  unit_bias params g = true → v < vcount g →
  (Node2VecModel._get_p params (vname g v) == 1)%Q
  ∧ (Node2VecModel._get_q params (vname g v) == 1)%Q.
Proof.
  intros H Hv. unfold unit_bias in H. rewrite forallb_forall in H.
  specialize (H v). rewrite andb_true_iff, !Qeq_bool_iff in H. apply H.
  unfold vs. apply in_seq. lia.
Qed.

Lemma unit_bias_nonzero (params : RandomWalkParameters) (g : Graph) :
  unit_bias params g = true → nonzero_bias params g = true.
Proof.
  intros H. unfold nonzero_bias. apply forallb_forall. intros v Hv.
  unfold vs in Hv. apply in_seq in Hv.
  destruct (unit_bias_at params g v H) as [Hp Hq]; [lia|].
  rewrite andb_true_iff, !negb_true_iff, !Qeq_bool_false. split; lra.
Qed.

Lemma unit_bias_weight (params : RandomWalkParameters) (g : Graph) (u v x : nat) :
  unit_bias params g = true → v < vcount g →
  (spec_transition_weight params g u v x == spec_edge_weight g v x)%Q.
Proof.
  intros H Hv. destruct (unit_bias_at params g v H Hv) as [Hp Hq].
  unfold spec_transition_weight.
  destruct (bool_decide (x = u)); [rewrite Hp; field|].
  destruct (spec_has_edge g u x); [reflexivity|rewrite Hq; field].
Qed.

(** X6: with [p = q = 1] at every vertex (and distinct vertex names) the
    walk is not biased by its previous vertex: the second-order
    distribution stored for [(v, u)] has the same entries as the
    first-travel distribution of [v], for every vertex [u] and every
    neighbor [v] of [u]. *)
Theorem unit_bias_is_first_order (params : RandomWalkParameters) (g : Graph) :
  unit_bias params g = true → unique_names g = true →
  ∃ g', Node2VecModel._precompute_probs params g = inr g'
    ∧ ∀ u v, u < vcount g → In v (neighbors g u) →
        ∃ t d1 d2, g_probabilities g' !! v = Some t ∧ t !! vname g u = Some d1
                   ∧ g_first_travel_key g' !! v = Some d2
                   ∧ same_distribution d1 d2 = true.
Proof.
  intros Hb Hu.
  destruct (precompute_probs_tables params g (unit_bias_nonzero params g Hb) Hu)
    as (g' & Hrun & _ & Hprob & Hfirst).
  exists g'. split; [exact Hrun|]. intros u v Hlt Hin.
  destruct (Hprob u v Hlt Hin) as (t & Ht & Hd).
  destruct (neighbor_has_neighbor g u v Hlt Hin) as [Hv Hne].
  exists t, (spec_transition params g u v), (spec_first_travel g v).
  split; [exact Ht|]. split; [exact Hd|]. split; [apply Hfirst; assumption|].
  unfold spec_transition, spec_first_travel. apply np_normalize_map_ext.
  intros x _. apply unit_bias_weight; assumption.
Qed.

Lemma unit_bias_is_first_order_witness :
  unit_bias short_params triangle = true
  ∧ unique_names triangle = true
  ∧ ∃ g', Node2VecModel._precompute_probs short_params triangle = inr g'
      ∧ ∀ u v, u < vcount triangle → In v (neighbors triangle u) →
          ∃ t d1 d2, g_probabilities g' !! v = Some t ∧ t !! vname triangle u = Some d1
                     ∧ g_first_travel_key g' !! v = Some d2
                     ∧ same_distribution d1 d2 = true.
Proof.
  assert (unit_bias short_params triangle = true) as H1 by (vm_compute; reflexivity).
  assert (unique_names triangle = true) as H2 by (vm_compute; reflexivity).
  split; [exact H1|]. split; [exact H2|].
  exact (unit_bias_is_first_order short_params triangle H1 H2).
Defined.

(** ** Unweighted graphs *)

Lemma Qsum_repeat_one (n : nat) : (Qsum (repeat 1%Q n) == inject_Z (Z.of_nat n))%Q.
Proof.
  induction n as [|n IH]; [reflexivity|].
  cbn [repeat Qsum fold_right]. fold (Qsum (repeat 1%Q n)).
  rewrite IH, Nat2Z.inj_succ. unfold Z.succ. rewrite inject_Z_plus. ring.
Qed.

Lemma forallb_combine_repeat (a b : Q) (n : nat) :
  (a == b)%Q →
  forallb (fun pq : Q * Q => Qeq_bool pq.1 pq.2) (combine (repeat a n) (repeat b n)) = true.
Proof.
  intros H. induction n as [|n IH]; simpl; [reflexivity|].
  rewrite IH, andb_true_r. apply Qeq_bool_iff, H.
Qed.

Lemma map_constant {A : Type} (f : A → Q) (c : Q) (l : list A) :
  (∀ x, In x l → f x = c) → map f l = repeat c (length l).
Proof.
  induction l as [|x l IH]; intros H; simpl; [reflexivity|].
  rewrite (H x (or_introl eq_refl)), IH; [reflexivity|].
  intros y Hy. apply H. right. exact Hy.
Qed.

Lemma np_normalize_ones (n : nat) :
  n ≠ 0 →
  is_distribution (Some (np_normalize (repeat 1%Q n))) (uniform_distribution n) = true.
Proof.
  intros Hn.
  assert (¬ (Qsum (repeat 1%Q n) == 0)%Q) as Hnz.
  { rewrite Qsum_repeat_one. unfold Qeq. simpl. lia. }
  unfold is_distribution, uniform_distribution. simpl.
  rewrite np_normalize_nonzero by exact Hnz.
  rewrite map_repeat, !repeat_length, Nat.eqb_refl. simpl.
  apply forallb_combine_repeat. rewrite Qsum_repeat_one. reflexivity.
Qed.

Lemma unit_edge_weight (g : Graph) (v x : nat) :
  In x (neighbors (set_weights g 1) v) → spec_edge_weight (set_weights g 1) v x = 1%Q.
Proof.
  intros Hx. destruct (first_edge_between _ v x Hx) as (e & _ & <- & Hin).
  simpl in Hin. apply in_map_iff in Hin as (e0 & <- & _). reflexivity.
Qed.

(** X7: on a graph declared unweighted the first step of the second-order
    walk is uniform: after construction (non-zero resolved [p] and [q],
    distinct vertex names) the first-travel distribution of every vertex
    with [n >= 1] neighbors has [n] entries equal to [1/n], whatever the
    weights the edges carried before. *)
Theorem unweighted_first_travel_is_uniform (params : RandomWalkParameters) (g : Graph) :
  is_weighted params = false → nonzero_bias params g = true → unique_names g = true →
  ∃ g', Node2VecModel.__init__ params g = inr g'
    ∧ ∀ v, v < vcount g → neighbors g v ≠ [] →
        is_distribution (g_first_travel_key g' !! v)
          (uniform_distribution (length (neighbors g v))) = true.
Proof.
  intros Hw Hnz Hu.
  pose proof (neighbors_reset_weights params g) as Hnb.
  unfold Node2VecModel.__init__, Node2VecModel.reset_weights in *. rewrite Hw in *.
  destruct (precompute_probs_tables params (set_weights g 1) Hnz Hu)
    as (g' & Hrun & _ & _ & Hfirst).
  exists g'. split; [exact Hrun|]. intros v Hv Hne.
  rewrite (Hfirst v) by (rewrite ?Hnb; assumption).
  unfold spec_first_travel.
  rewrite (map_constant _ 1%Q) by (intros x Hx; apply unit_edge_weight, Hx).
  rewrite Hnb. apply np_normalize_ones. destruct (neighbors g v); simpl; congruence.
Qed.

Lemma unweighted_first_travel_is_uniform_witness :
  is_weighted unweighted_params = false
  ∧ nonzero_bias unweighted_params path_and_isolated = true
  ∧ unique_names path_and_isolated = true
  ∧ ∃ g', Node2VecModel.__init__ unweighted_params path_and_isolated = inr g'
      ∧ ∀ v, v < vcount path_and_isolated → neighbors path_and_isolated v ≠ [] →
          is_distribution (g_first_travel_key g' !! v)
            (uniform_distribution (length (neighbors path_and_isolated v))) = true.
Proof.
  assert (nonzero_bias unweighted_params path_and_isolated = true) as H1
    by (vm_compute; reflexivity).
  assert (unique_names path_and_isolated = true) as H2 by (vm_compute; reflexivity).
  split; [reflexivity|]. split; [exact H1|]. split; [exact H2|].
  exact (unweighted_first_travel_is_uniform unweighted_params path_and_isolated
           eq_refl H1 H2).
Defined.

(** ** What the tables depend on *)




(** ** What the constructor leaves alone *)

(** X9: the constructor never changes the structure of the graph.  When it
    completes, the resulting graph has the same directedness, the same
    vertices with their names and labels, and edges with the same end
    points in the same order; every vertex has the same neighbor list; and
    with [is_weighted] the edges keep their weights too. *)
Theorem init_keeps_the_structure (params : RandomWalkParameters) (g g' : Graph) :
  Node2VecModel.__init__ params g = inr g' →
  g_directed g' = g_directed g
  ∧ g_vs g' = g_vs g
  ∧ map e_source (g_es g') = map e_source (g_es g)
  ∧ map e_target (g_es g') = map e_target (g_es g)
  ∧ (is_weighted params = true → g_es g' = g_es g)
  ∧ (∀ v, neighbors g' v = neighbors g v).
Proof.
  intros Hrun. unfold Node2VecModel.__init__ in Hrun.
  pose proof (precompute_probs_cases params (Node2VecModel.reset_weights params g)) as H.
  rewrite Hrun in H. destruct H as [Hs _].
  pose proof (fun v => neighbors_shape _ g' v Hs) as Hnb.
  destruct Hs as (Hd & Hv & He).
  assert (∀ v, neighbors g' v = neighbors g v) as Hnb'.
  { intros v. rewrite Hnb. apply neighbors_reset_weights. }
  unfold Node2VecModel.reset_weights in *.
  destruct (is_weighted params); simpl in *.
  - rewrite Hd, Hv, He. repeat split; auto.
  - rewrite Hd, Hv, He, !map_map. simpl. repeat split; auto. discriminate.
Qed.

Lemma init_keeps_the_structure_witness :
  Node2VecModel.__init__ unweighted_params path_and_isolated
  = inr (built unweighted_params path_and_isolated)
  ∧ ∀ v, neighbors (built unweighted_params path_and_isolated) v
         = neighbors path_and_isolated v.
Proof.
  assert (Node2VecModel.__init__ unweighted_params path_and_isolated
          = inr (built unweighted_params path_and_isolated)) as H
    by (vm_compute; reflexivity).
  split; [exact H|].
  exact (proj2 (proj2 (proj2 (proj2 (proj2
           (init_keeps_the_structure unweighted_params path_and_isolated
              (built unweighted_params path_and_isolated) H)))))).
Defined.

(** * Further properties of the orchestrator *)

(** ** The order of the walks *)

Lemma walks_from_heads (f : Graph → nat → RandomState → Trace) (start : nat → option Item)
    (g : Graph) (vertices : list nat) (st : RandomState) :
  (∀ v st', head (emitted (f g v st')) = start v) →
  map (fun t => head (emitted t)) (AbstractRandomWalker.walks_from f g vertices st).1
  = map start vertices.
Proof.
  intros Hstart. revert st.
  induction vertices as [|v vertices IH]; intros st; simpl; [reflexivity|].
  rewrite Hstart, IH. reflexivity.
Qed.

Lemma repeat_walks_heads (f : Graph → nat → RandomState → Trace) (start : nat → option Item)
    (g : Graph) (repetitions : nat) (st : RandomState) :
  (∀ v st', head (emitted (f g v st')) = start v) →
  map (fun t => head (emitted t)) (AbstractRandomWalker.repeat_walks f g repetitions st)
  = concat (repeat (map start (vs g)) repetitions).
Proof.
  intros Hstart. revert st.
  induction repetitions as [|n IH]; intros st; simpl; [reflexivity|].
  rewrite map_app, (walks_from_heads f start) by exact Hstart. rewrite IH. reflexivity.
Qed.

(** X11: the shuffle of [get_walks] has no effect on the order of the
    corpus.  In every repetition the walks are yielded in the order of
    [graph.vs]: the walks of the uniform and of the restarting walker
    start with the labels of the vertices 0, 1, 2, ... in turn, and, for
    [max_path_length >= 2], those of the second-order walker start with
    the vertices 0, 1, 2, ... in turn, a skipped vertex having its empty
    walk at its place. *)
Theorem walks_come_in_vertex_order (params : RandomWalkParameters) (src : RandomSource)
    (g : Graph) (st : RandomState) :
  map (fun t => head (emitted t)) (Walker.get_walks Uniform params src g st)
  = concat (repeat (map (fun v => Some (Label (vlabel g v))) (vs g))
              (Z.to_nat (number_paths params)))
  ∧ map (fun t => head (emitted t)) (Walker.get_walks Restarting params src g st)
    = concat (repeat (map (fun v => Some (Label (vlabel g v))) (vs g))
                (Z.to_nat (number_paths params)))
  ∧ ((2 ≤ max_path_length params)%Z →
     map (fun t => head (emitted t)) (Walker.get_walks SecondOrderBiased params src g st)
     = concat (repeat (map (fun v => if BiasedRandomWalker._check params v then None
                                     else Some (Vertex v)) (vs g))
                 (Z.to_nat (number_paths params)))).
Proof.
  unfold Walker.get_walks, AbstractRandomWalker.get_walks. split; [|split].
  - apply repeat_walks_heads. reflexivity.
  - apply repeat_walks_heads. reflexivity.
  - intros Hlen. apply repeat_walks_heads. intros v st'. simpl.
    unfold BiasedRandomWalker.get_igraph_walk.
    destruct (Z.ltb_spec (max_path_length params) 2) as [?|_]; [lia|].
    destruct (BiasedRandomWalker._check params v); reflexivity.
Qed.

Lemma walks_come_in_vertex_order_witness :
  (2 ≤ max_path_length skip_params)%Z
  ∧ map (fun t => head (emitted t))
      (Walker.get_walks SecondOrderBiased skip_params half_source
         (built skip_params path_and_isolated) start_state)
    = concat (repeat (map (fun v => if BiasedRandomWalker._check skip_params v then None
                                    else Some (Vertex v))
                        (vs (built skip_params path_and_isolated)))
                (Z.to_nat (number_paths skip_params))).
Proof.
  assert (2 ≤ max_path_length skip_params)%Z as H by (vm_compute; discriminate).
  split; [exact H|].
  exact (proj2 (proj2 (walks_come_in_vertex_order skip_params half_source
                         (built skip_params path_and_isolated) start_state)) H).
Defined.

(** ** Which generator a corpus depends on *)

Section same_python_draws.
Context (src1 src2 : RandomSource).
Context (Hsame : ∀ i : nat, py_draw src1 i = py_draw src2 i).

Lemma random_choice_python {A : Type} (l : list A) (st : RandomState) :
  random_choice src1 l st = random_choice src2 l st.
Proof. unfold random_choice. rewrite Hsame. reflexivity. Qed.

Lemma standard_loop_python (g : Graph) (steps tail : nat) (st : RandomState) :
  StandardRandomWalker.walk_loop src1 g steps tail st
  = StandardRandomWalker.walk_loop src2 g steps tail st.
Proof.
  revert tail st. induction steps as [|n IH]; intros tail st; simpl; [reflexivity|].
  rewrite random_choice_python.
  destruct (0 <? neighborhood_size g tail); [|reflexivity].
  destruct (random_choice src2 (neighbors g tail) st) as [e|[tail' st']]; [reflexivity|].
  rewrite IH. reflexivity.
Qed.

Lemma next_tail_python (params : RandomWalkParameters) (g : Graph) (vertex tail : nat)
    (st : RandomState) :
  RestartingRandomWalker.next_tail params src1 g vertex tail st
  = RestartingRandomWalker.next_tail params src2 g vertex tail st.
Proof.
  unfold RestartingRandomWalker.next_tail, random_random.
  rewrite Hsame, random_choice_python. reflexivity.
Qed.

Lemma restarting_loop_python (params : RandomWalkParameters) (g : Graph)
    (steps vertex tail : nat) (st : RandomState) :
  RestartingRandomWalker.walk_loop params src1 g steps vertex tail st
  = RestartingRandomWalker.walk_loop params src2 g steps vertex tail st.
Proof.
  revert tail st. induction steps as [|n IH]; intros tail st; simpl; [reflexivity|].
  rewrite next_tail_python.
  destruct (0 <? neighborhood_size g tail); [|reflexivity].
  destruct (RestartingRandomWalker.next_tail params src2 g vertex tail st)
    as [e|[tail' st']]; [reflexivity|].
  rewrite IH. reflexivity.
Qed.

End same_python_draws.

Section same_numpy_draws.
Context (src1 src2 : RandomSource).
Context (Hsame : ∀ i : nat, np_draw src1 i = np_draw src2 i).

Lemma np_random_choice_numpy {A : Type} (a : list A) (p : option (list NpFloat))
    (st : RandomState) :
  np_random_choice src1 a p st = np_random_choice src2 a p st.
Proof. unfold np_random_choice. rewrite Hsame. reflexivity. Qed.

Lemma biased_loop_numpy (g : Graph) (steps double_tail tail : nat) (st : RandomState) :
  BiasedRandomWalker.walk_loop src1 g steps double_tail tail st
  = BiasedRandomWalker.walk_loop src2 g steps double_tail tail st.
Proof.
  revert double_tail tail st.
  induction steps as [|n IH]; intros double_tail tail st; simpl; [reflexivity|].
  destruct (length (neighbors g tail) =? 0); [reflexivity|].
  destruct (BiasedRandomWalker.transition g tail (vname g double_tail)) as [e|probs];
    [reflexivity|].
  rewrite np_random_choice_numpy.
  destruct (np_random_choice src2 (neighbors g tail) (Some probs) st) as [e|[tail' st']];
    [reflexivity|].
  rewrite IH. reflexivity.
Qed.

Lemma biased_walk_numpy (params : RandomWalkParameters) (g : Graph) (vertex : nat)
    (st : RandomState) :
  BiasedRandomWalker.get_igraph_walk params src1 g vertex st
  = BiasedRandomWalker.get_igraph_walk params src2 g vertex st.
Proof.
  unfold BiasedRandomWalker.get_igraph_walk.
  destruct (max_path_length params <? 2)%Z; [reflexivity|].
  destruct (BiasedRandomWalker._check params vertex); [reflexivity|].
  destruct (BiasedRandomWalker.first_travel g vertex) as [e|probs]; [reflexivity|].
  rewrite np_random_choice_numpy.
  destruct (np_random_choice src2 (neighbors g vertex) probs st) as [e|[tail st']];
    [reflexivity|].
  rewrite biased_loop_numpy. reflexivity.
Qed.

End same_numpy_draws.

(** X12: each sampler reads one random generator only.  The corpus of the
    uniform and of the restarting walker is the same for two random
    sources whose [random] draws agree, whatever [numpy.random] gives; the
    corpus of the second-order walker is the same for two sources whose
    [numpy.random] draws agree, whatever [random] gives (the shuffle of
    [get_walks] draws from [random], but its result is not used). *)
Theorem samplers_read_one_generator (params : RandomWalkParameters)
    (src1 src2 : RandomSource) (g : Graph) (st : RandomState) :
  ((∀ i : nat, py_draw src1 i = py_draw src2 i) →
   Walker.get_walks Uniform params src1 g st = Walker.get_walks Uniform params src2 g st
   ∧ Walker.get_walks Restarting params src1 g st
     = Walker.get_walks Restarting params src2 g st)
  ∧ ((∀ i : nat, np_draw src1 i = np_draw src2 i) →
     Walker.get_walks SecondOrderBiased params src1 g st
     = Walker.get_walks SecondOrderBiased params src2 g st).
Proof.
  unfold Walker.get_walks, AbstractRandomWalker.get_walks. split.
  - intros Hsame. split; apply repeat_walks_ext; intros g' v st'; simpl.
    + unfold StandardRandomWalker.get_igraph_walk.
      rewrite (standard_loop_python src1 src2 Hsame). reflexivity.
    + unfold RestartingRandomWalker.get_igraph_walk.
      rewrite (restarting_loop_python src1 src2 Hsame). reflexivity.
  - intros Hsame. apply repeat_walks_ext. intros g' v st'. simpl.
    apply biased_walk_numpy, Hsame.
Qed.

Lemma samplers_read_one_generator_witness :
  (∀ i : nat, py_draw half_source i = py_draw half_source' i)
  ∧ Walker.get_walks Uniform short_params half_source triangle start_state
    = Walker.get_walks Uniform short_params half_source' triangle start_state.
Proof.
  assert (∀ i : nat, py_draw half_source i = py_draw half_source' i) as H.
  { intros i. simpl. rewrite Nat.sub_diag. reflexivity. }
  split; [exact H|].
  exact (proj1 (proj1 (samplers_read_one_generator short_params half_source half_source'
                         triangle start_state) H)).
Defined.
